(** * DiscordMathBot: privilege sets, the Discord log relay and the restart
    utility, embedded from the Python sources.

    - [Privileges]  : src/bot/privileges.py
    - [DiscordLog]  : src/plugins/discord_log.py
    - [Restart]     : src/util/restart.py

    Python [int] values are [Z], [str] values are [string] (a sequence of
    characters, [String.length] playing the role of [len]), the key-value
    configuration object is a finite map, and a command that may raise
    threads the configuration through a small state-and-exception monad, so
    that what a raising command leaves behind is part of its result.

    What the sources import from elsewhere (the key-value store, the
    [format] helper of util/discord.py, [FrozenList], the [logging],
    [asyncio] and [discord] libraries) enters as a parameter or as the
    plain data it stands for.  A call into a library is taken to return,
    except where the source itself provides for its failure:
    [asyncio.get_event_loop()], [int(...)], the sends of [log_discord] and
    [os.execv]. *)

From Stdlib Require Import ZArith Lia Ascii String.
From stdpp Require Import base option list gmap strings.

Open Scope Z_scope.

(* ===================================================================== *)
(** ** src/bot/privileges.py *)
(* ===================================================================== *)

Module Privileges.

(** The second component of a configuration key:
    [Literal["users", "roles"]]. *)
Inductive field : Type := users | roles.

#[export] Instance field_eq_dec : EqDecision field.
Proof. solve_decision. Defined.

#[export] Instance field_countable : Countable field.
Proof.
  refine (inj_countable' (fun f => match f with users => false | roles => true end)
                         (fun b => if b then roles else users) _).
  by intros [].
Defined.

(** [PrivilegesConf]: [conf[priv, "users"]] is [conf !! (priv, users)];
    an unset entry reads as [None]. *)
Abbreviation PrivilegesConf := (gmap (string * field) (list Z)).

(** [conf[key] = value]; storing [None] unsets the entry. *)
Definition setitem (key : string * field) (value : option (list Z))
    (conf : PrivilegesConf) : PrivilegesConf :=
  match value with
  | Some l => <[key := l]> conf
  | None => delete key conf
  end.

(** Truth value of an [Optional[FrozenList[int]]]: [None] and the empty list
    are false. *)
Definition truthy (o : option (list Z)) : bool :=
  match o with
  | Some (_ :: _) => true
  | _ => false
  end.

(** [o or FrozenList()] *)
Definition or_empty (o : option (list Z)) : list Z :=
  if truthy o then default [] o else [].

(** [x in l] *)
Definition contains (x : Z) (l : list Z) : bool := bool_decide (x ∈ l).

Record Role : Type := { role_id : Z; role_name : string }.

(** [Union[User, Member]]: only a [Member] carries roles. *)
Inductive Actor : Type :=
| User (id : Z)
| Member (id : Z) (member_roles : list Role).

Definition actor_id (a : Actor) : Z :=
  match a with User i => i | Member i _ => i end.

(** [has_privilege(priv, user_or_member)] *)
Definition has_privilege (conf : PrivilegesConf) (priv : string)
    (user_or_member : Actor) : bool :=
  let users_ := conf !! (priv, users) in
  let roles_ := conf !! (priv, roles) in
  if truthy users_ && contains (actor_id user_or_member) (default [] users_)
  then true
  else
    match user_or_member with
    | Member _ member_roles =>
        if truthy roles_
        then existsb (fun role => contains (role_id role) (default [] roles_))
                     member_roles
        else false
    | User _ => false
    end.

(** *** Commands *)

(** The messages of the [UserError]s the commands raise. *)
Inductive UserError : Type :=
| DoesNotExist (priv : string)            (* "Priv {!i} does not exist" *)
| AlreadyExists (priv : string)           (* "Priv {!i} already exists" *)
| UserAlreadyIn (id : Z) (priv : string)  (* "User {!m} is already in priv {!i}" *)
| RoleAlreadyIn (id : Z) (priv : string)  (* "Role {!M} is already in priv {!i}" *)
| UserNotIn (id : Z) (priv : string)      (* "User {!m} is already not in priv {!i}" *)
| RoleNotIn (id : Z) (priv : string).     (* "Role {!M} is already not in priv {!i}" *)

Inductive exn : Type :=
| EUserError (e : UserError)
| EValueError.                            (* list.remove(x): x not in list *)

(** One member of the listing [priv_show] builds. *)
Inductive entry : Type :=
| UserNamed (name : string) (id : Z)      (* "user {!m}({!i} {!i})" *)
| UserRaw (id : Z)                        (* "user {!m}({!i})" *)
| RoleNamed (name : string) (id : Z)      (* "role {!M}({!i} {!i})" *)
| RoleRaw (id : Z).                       (* "role {!M}({!i})" *)

(** What a command passes to [ctx.send]. *)
Inductive Reply : Type :=
| Created (priv : string)                 (* "Created priv {!i}" *)
| Removed (priv : string)                 (* "Removed priv {!i}" *)
| Includes (priv : string) (output : list entry)
                                          (* "Priv {!i} includes: {}", "; ".join(output) *)
| AddedUser (id : Z) (priv : string)      (* "Added user {!m} to priv {!i}" *)
| AddedRole (id : Z) (priv : string)      (* "Added role {!M} to priv {!i}" *)
| RemovedUser (id : Z) (priv : string)    (* "Removed user {!m} from priv {!i}" *)
| RemovedRole (id : Z) (priv : string).   (* "Removed role {!M} from priv {!i}" *)

Inductive result (A : Type) : Type :=
| Ok (a : A)
| Raise (e : exn).
Arguments Ok {A} a.
Arguments Raise {A} e.

(** A command body: it reads and writes the configuration and either
    returns or raises; the configuration it leaves is returned either way. *)
Definition Cmd (A : Type) : Type := PrivilegesConf -> PrivilegesConf * result A.

Definition ret {A} (a : A) : Cmd A := fun conf => (conf, Ok a).
Definition raise {A} (e : exn) : Cmd A := fun conf => (conf, Raise e).
Definition bind {A B} (c : Cmd A) (k : A -> Cmd B) : Cmd B :=
  fun conf =>
    match c conf with
    | (conf', Ok a) => k a conf'
    | (conf', Raise e) => (conf', Raise e)
    end.
Definition getitem (key : string * field) : Cmd (option (list Z)) :=
  fun conf => (conf, Ok (conf !! key)).
Definition store (key : string * field) (value : option (list Z)) : Cmd unit :=
  fun conf => (setitem key value conf, Ok tt).

Notation "x <- c ;; k" := (bind c (fun x => k))
  (at level 20, c at level 99, k at level 200, only parsing).
Notation "c ;;; k" := (bind c (fun _ => k))
  (at level 100, k at level 200, right associativity, only parsing).

(** [priv_exists(priv)] *)
Definition priv_exists (conf : PrivilegesConf) (priv : string) : bool :=
  bool_decide (conf !! (priv, users) ≠ None) || bool_decide (conf !! (priv, roles) ≠ None).

(** [validate_priv(priv)] *)
Definition validate_priv (priv : string) : Cmd unit :=
  fun conf =>
    if negb (priv_exists conf priv)
    then raise (EUserError (DoesNotExist priv)) conf
    else ret tt conf.

(** [priv_new(ctx, priv)] *)
Definition priv_new (priv : string) : Cmd Reply :=
  fun conf =>
    if priv_exists conf priv
    then raise (EUserError (AlreadyExists priv)) conf
    else (store (priv, users) (Some []) ;;;
          store (priv, roles) (Some []) ;;;
          ret (Created priv)) conf.

(** [priv_delete(ctx, priv)] *)
Definition priv_delete (priv : string) : Cmd Reply :=
  validate_priv priv ;;;
  store (priv, users) None ;;;
  store (priv, roles) None ;;;
  ret (Removed priv).

(** [PrivContext]: the attribute the groups [priv add] and [priv remove]
    leave for their subcommands. *)
Record PrivContext : Type := { ctx_priv : string }.

(** [priv_add(ctx, priv)] *)
Definition priv_add (priv : string) : Cmd PrivContext :=
  validate_priv priv ;;;
  ret {| ctx_priv := priv |}.

(** [priv_remove(ctx, priv)] *)
Definition priv_remove (priv : string) : Cmd PrivContext :=
  validate_priv priv ;;;
  ret {| ctx_priv := priv |}.

(** [l.remove(x)]: drops the first occurrence, [ValueError] when there is
    none. *)
Fixpoint list_remove (x : Z) (l : list Z) : option (list Z) :=
  match l with
  | [] => None
  | y :: l' =>
      if decide (y = x) then Some l'
      else match list_remove x l' with
           | Some r => Some (y :: r)
           | None => None
           end
  end.

Definition remove (x : Z) (l : list Z) : Cmd (list Z) :=
  match list_remove x l with
  | Some r => ret r
  | None => raise EValueError
  end.

(** [priv_add_user(ctx, user)] *)
Definition priv_add_user (ctx : PrivContext) (user_id : Z) : Cmd Reply :=
  let priv := ctx_priv ctx in
  o <- getitem (priv, users) ;;
  let users_ := or_empty o in
  if contains user_id users_
  then raise (EUserError (UserAlreadyIn user_id priv))
  else
    store (priv, users) (Some (users_ ++ [user_id])) ;;;
    ret (AddedUser user_id priv).

(** [priv_add_role(ctx, role)] *)
Definition priv_add_role (ctx : PrivContext) (role_id : Z) : Cmd Reply :=
  let priv := ctx_priv ctx in
  o <- getitem (priv, roles) ;;
  let roles_ := or_empty o in
  if contains role_id roles_
  then raise (EUserError (RoleAlreadyIn role_id priv))
  else
    store (priv, roles) (Some (roles_ ++ [role_id])) ;;;
    ret (AddedRole role_id priv).

(** [priv_remove_user(ctx, user)] *)
Definition priv_remove_user (ctx : PrivContext) (user_id : Z) : Cmd Reply :=
  let priv := ctx_priv ctx in
  o <- getitem (priv, users) ;;
  let users_ := or_empty o in
  if negb (contains user_id users_)
  then raise (EUserError (UserNotIn user_id priv))
  else
    musers <- remove user_id users_ ;;
    store (priv, users) (Some musers) ;;;
    ret (RemovedUser user_id priv).

(** [priv_remove_role(ctx, role)] *)
Definition priv_remove_role (ctx : PrivContext) (role_id : Z) : Cmd Reply :=
  let priv := ctx_priv ctx in
  o <- getitem (priv, roles) ;;
  let roles_ := or_empty o in
  if negb (contains role_id roles_)
  then raise (EUserError (RoleNotIn role_id priv))
  else
    mroles <- remove role_id roles_ ;;
    store (priv, roles) (Some mroles) ;;;
    ret (RemovedRole role_id priv).

(** The command surface: [priv new], [priv delete], [priv show],
    [priv add user|role], [priv remove user|role].  A subcommand of a group
    runs after the group's own callback. *)
Inductive command : Type :=
| New (priv : string)
| Delete (priv : string)
| Show (priv : string)
| AddUser (priv : string) (id : Z)
| AddRole (priv : string) (id : Z)
| RemoveUser (priv : string) (id : Z)
| RemoveRole (priv : string) (id : Z).

(** [priv add <priv> user <user>]: the group callback [priv_add], then the
    subcommand [priv_add_user] on the context it prepared; likewise for the
    three other membership commands. *)
Definition add_user (priv : string) (id : Z) : Cmd Reply :=
  ctx <- priv_add priv ;; priv_add_user ctx id.
Definition add_role (priv : string) (id : Z) : Cmd Reply :=
  ctx <- priv_add priv ;; priv_add_role ctx id.
Definition remove_user (priv : string) (id : Z) : Cmd Reply :=
  ctx <- priv_remove priv ;; priv_remove_user ctx id.
Definition remove_role (priv : string) (id : Z) : Cmd Reply :=
  ctx <- priv_remove priv ;; priv_remove_role ctx id.

(** The name a command is addressed to. *)
Definition target (c : command) : string :=
  match c with
  | New p | Delete p | Show p => p
  | AddUser p _ | AddRole p _ | RemoveUser p _ | RemoveRole p _ => p
  end.

Definition is_new (c : command) : bool :=
  match c with New _ => true | _ => false end.

Section Show.

(** [client.fetch_user(id)], reduced to the name of the user it returns. *)
Variable fetch_user : Z -> option string.
(** [ctx.guild.roles], [None] outside a guild. *)
Variable guild : option (list Role).

Definition show_user (id : Z) : entry :=
  match fetch_user id with
  | Some name => UserNamed name id
  | None => UserRaw id
  end.

Definition show_role (id : Z) : entry :=
  match List.find (fun r => bool_decide (role_id r = id)) (default [] guild) with
  | Some role => RoleNamed (role_name role) (role_id role)
  | None => RoleRaw id
  end.

(** [priv_show(ctx, priv)] *)
Definition priv_show (priv : string) : Cmd Reply :=
  validate_priv priv ;;;
  users_ <- getitem (priv, users) ;;
  roles_ <- getitem (priv, roles) ;;
  let output := map show_user (or_empty users_) ++ map show_role (or_empty roles_) in
  ret (Includes priv output).

(** Dispatch of one command of the surface. *)
Definition invoke (c : command) : Cmd Reply :=
  match c with
  | New priv => priv_new priv
  | Delete priv => priv_delete priv
  | Show priv => priv_show priv
  | AddUser priv id => add_user priv id
  | AddRole priv id => add_role priv id
  | RemoveUser priv id => remove_user priv id
  | RemoveRole priv id => remove_role priv id
  end.

End Show.

(** *** The check in front of the commands *)

(** [commands.Context], with what [PrivCheck] and [priv_show] read. *)
Record Context : Type := {
  author : Actor;
  invoked_with : string;
  ctx_guild : option (list Role)
}.

(** The warning [PrivCheck] logs: ["Denied {} to {!r}"], with the command
    name and the author. *)
Record Denied : Type := { denied_command : string; denied_author : Actor }.

(** [PrivCheck(priv).__call__(ctx)]: the answer and what it logs. *)
Definition PrivCheck (priv : string) (ctx : Context) (conf : PrivilegesConf)
    : bool * list Denied :=
  if has_privilege conf priv (author ctx)
  then (true, [])
  else (false, [{| denied_command := invoked_with ctx; denied_author := author ctx |}]).

(** How an invocation of a [priv] command ends: the check refused it, or
    the command ran and returned or raised. *)
Inductive dispatched : Type :=
| CheckFailure
| Ran (r : result Reply).

(** [priv_command] is declared under [@priv("shell")]: the check of the
    group runs before any of its commands. *)
Definition priv_command (fetch_user : Z -> option string) (ctx : Context)
    (c : command) (conf : PrivilegesConf)
    : PrivilegesConf * dispatched * list Denied :=
  let '(allowed, warnings) := PrivCheck "shell" ctx conf in
  if allowed
  then let '(conf', r) := invoke fetch_user (ctx_guild ctx) c conf in
       (conf', Ran r, warnings)
  else (conf, CheckFailure, warnings).

(** The configuration after a sequence of invocations. *)
Fixpoint session (fetch_user : Z -> option string)
    (invocations : list (Context * command)) (conf : PrivilegesConf)
    : PrivilegesConf :=
  match invocations with
  | [] => conf
  | (ctx, c) :: rest =>
      session fetch_user rest (priv_command fetch_user ctx c conf).1.1
  end.

(** The id an entry of a listing stands for, and the list it comes from. *)
Definition entry_id (e : entry) : Z :=
  match e with
  | UserNamed _ id | UserRaw id | RoleNamed _ id | RoleRaw id => id
  end.

Definition entry_field (e : entry) : field :=
  match e with
  | UserNamed _ _ | UserRaw _ => users
  | RoleNamed _ _ | RoleRaw _ => roles
  end.

(** *** Sample configurations *)

(** The set ["mods"] with two users and one role; the set ["staff"] that
    exists through its role list only. *)
Definition sample_conf : PrivilegesConf :=
  <[("mods", users) := [1; 2]]> (<[("mods", roles) := [10]]> (<[("staff", roles) := [10]]> ∅)).

Definition moderator : Role := {| role_id := 10; role_name := "moderator" |}.

(** [sample_conf] with the user 1 in the set ["shell"], and an invocation
    context of that user in a direct message. *)
Definition shell_conf : PrivilegesConf := <[("shell", users) := [1]]> sample_conf.

Definition shell_ctx : Context :=
  {| author := User 1; invoked_with := "priv"; ctx_guild := None |}.

(** A client that resolves no user. *)
Definition no_user (id : Z) : option string := None.

End Privileges.

(* ===================================================================== *)
(** ** src/plugins/discord_log.py *)
(* ===================================================================== *)

Module DiscordLog.

(** [len(s)] *)
Definition len (s : string) : nat := String.length s.

(** [File(BytesIO(data), filename=name)] *)
Record File : Type := { fp : list Byte.byte; filename : string }.

(** The argument of one [ChannelById(client, chan_id).send(...)]: a text
    message or a file. *)
Inductive payload : Type :=
| Content (message : string)
| Attachment (file : File).

(** One completed send: the channel it went to and what was sent. *)
Record Sent : Type := { to : Z; what : payload }.

(** [logging.LogRecord], with the attributes the handler looks at;
    [extra] lists the names of the attributes passed through [extra=]. *)
Record LogRecord : Type := {
  name : string;
  levelno : Z;
  levelname : string;
  msg : string;
  extra : list string
}.

(** Levels of the [logging] module. *)
Definition NOTSET : Z := 0.
Definition ERROR : Z := 40.
Definition CRITICAL : Z := 50.

(** [hasattr(record, attr)] for an attribute that only [extra=] can set. *)
Definition hasattr (record : LogRecord) (attr : string) : bool :=
  bool_decide (attr ∈ extra record).

(** The code object of a frame on the call stack. *)
Inductive code : Type :=
| log_discord_code                           (* self.log_discord.__code__ *)
| other_code (qualname : string).

Definition is_log_discord (c : code) : bool :=
  match c with log_discord_code => true | other_code _ => false end.

(** What [emit] reads from its surroundings. *)
Record Env : Type := {
  event_loop : option bool;   (* asyncio.get_event_loop(): [None] when it
                                 raises, [Some b] with b = loop.is_closed() *)
  channel : option string;    (* conf.channel *)
  client_closed : bool;       (* client.is_closed() *)
  frames : list code;         (* sys._getframe() and its f_back chain *)
  loop_running : bool         (* whether a loop is running in the calling
                                 thread: asyncio.create_task raises
                                 RuntimeError when none is *)
}.

(** How a call of [emit] ends: it returns, having created a task for the
    channel [task] or none, or the [RuntimeError] of
    [asyncio.create_task], which nothing in [emit] catches, leaves it. *)
Inductive emitted : Type :=
| Emitted (task : option Z)
| RuntimeError.

(** [DiscordHandler]: the level of [logging.Handler] and the queue.  The
    lock only delimits the steps below, each of which runs under it or
    between two suspension points of the event loop. *)
Record DiscordHandler : Type := { level : Z; queue : list string }.

(** [DiscordHandler.__init__(level)] *)
Definition new_handler (level : Z) : DiscordHandler :=
  {| level := level; queue := [] |}.

(** [queue_pop()] *)
Definition queue_pop (h : DiscordHandler) : option string * DiscordHandler :=
  match queue h with
  | [] => (None, h)
  | text :: rest => (Some text, {| level := level h; queue := rest |})
  end.

(** The record of
    [logger.critical("Could not report exception to Discord", exc_info=True,
    extra={"no_discord": True})]. *)
Definition report : LogRecord :=
  {| name := "plugins.discord_log"; levelno := CRITICAL; levelname := "CRITICAL";
     msg := "Could not report exception to Discord"; extra := ["no_discord"] |}.

Section Relay.

(** [util.discord.format("{!b:py}", text)]: the line as a code block. *)
Variable format_b_py : string -> string.
(** [text.encode("utf8")] *)
Variable encode_utf8 : string -> list Byte.byte.
(** [Handler.format(record)] with the formatter [init] sets. *)
Variable format : LogRecord -> string.
(** [int(s)]: [None] stands for [ValueError]. *)
Variable int : string -> option Z.

(** [File(BytesIO(text.encode("utf8")), filename="log.txt")] *)
Definition log_file (text : string) : File :=
  {| fp := encode_utf8 text; filename := "log.txt" |}.

(** The code blocks of [lines] one after the other: the buffer once
    [message += codeblock] has run for each of them. *)
Fixpoint wrapped (lines : list string) : string :=
  match lines with
  | [] => ""
  | text :: rest => format_b_py text +:+ wrapped rest
  end.

(** [DiscordHandler.emit(record)]: the handler after the call, and how
    the call ends.  On an empty queue the line is appended first and
    [asyncio.create_task] is called next: outside a running loop it raises
    with the line already in the queue and no task created. *)
Definition emit (env : Env) (record : LogRecord) (h : DiscordHandler)
    : DiscordHandler * emitted :=
  if hasattr record "no_discord" then (h, Emitted None)
  else
    match event_loop env with
    | None => (h, Emitted None)
    | Some true => (h, Emitted None)
    | Some false =>
        match channel env with
        | None => (h, Emitted None)
        | Some c =>
            match int c with
            | None => (h, Emitted None)
            | Some chan_id =>
                if client_closed env then (h, Emitted None)
                else
                  let text := format record in
                  if existsb is_log_discord (frames env) then (h, Emitted None)
                  else
                    match queue h with
                    | _ :: _ =>
                        ({| level := level h; queue := queue h ++ [text] |},
                         Emitted None)
                    | [] =>
                        ({| level := level h; queue := queue h ++ [text] |},
                         if loop_running env then Emitted (Some chan_id)
                         else RuntimeError)
                    end
            end
        end
    end.

(** How a logger passes a record to a handler attached to it
    ([logging.Logger.callHandlers]): only a record whose level reaches the
    handler's. *)
Definition handle (env : Env) (record : LogRecord) (h : DiscordHandler)
    : DiscordHandler * emitted :=
  if (level h <=? levelno record)%Z then emit env record h else (h, Emitted None).

(** [init()]: the handler it attaches to the root logger. *)
Definition init : DiscordHandler := new_handler ERROR.

(** *** [log_discord], run without interruption

    [delivers sent s] tells whether the send [s] returns, given what the
    channel received before; otherwise it raises. *)
Variable delivers : list Sent -> Sent -> bool.

Definition send (chan_id : Z) (p : payload) (sent : list Sent) : option (list Sent) :=
  let s := {| to := chan_id; what := p |} in
  if delivers sent s then Some (sent ++ [s]) else None.

(** The state [log_discord] leaves: the handler, the channel, and whether
    the [except] clause ran. *)
Record Outcome : Type := {
  handler_after : DiscordHandler;
  sent_after : list Sent;
  excepted : bool
}.

(** The [except] clause: [logger.critical(...)] reaches the handler from
    inside [log_discord]. *)
Definition except (env : Env) (h : DiscordHandler) (sent : list Sent) : Outcome :=
  let env' := {| event_loop := event_loop env; channel := channel env;
                 client_closed := client_closed env;
                 frames := other_code "emit" :: log_discord_code :: frames env;
                 loop_running := loop_running env |} in
  {| handler_after := fst (handle env' report h); sent_after := sent; excepted := true |}.

(** The [while] loop of [log_discord] and the final flush, on the queue [q]
    ([lvl] is the handler's level, which the loop carries along). *)
Fixpoint forward (env : Env) (chan_id : Z) (lvl : Z) (q : list string)
    (message : string) (sent : list Sent) : Outcome :=
  match q with
  | [] =>
      let h := {| level := lvl; queue := [] |} in
      if (0 <? len message)%nat then
        match send chan_id (Content message) sent with
        | Some sent' => {| handler_after := h; sent_after := sent'; excepted := false |}
        | None => except env h sent
        end
      else {| handler_after := h; sent_after := sent; excepted := false |}
  | text :: q' =>
      let h := {| level := lvl; queue := q' |} in
      let codeblock := format_b_py text in
      if (2000 <? len message + len codeblock)%nat then
        match (if (0 <? len message)%nat
               then send chan_id (Content message) sent else Some sent) with
        | None => except env h sent
        | Some sent1 =>
            if (2000 <? len codeblock)%nat then
              match send chan_id (Attachment (log_file text)) sent1 with
              | None => except env h sent1
              | Some sent2 => forward env chan_id lvl q' "" sent2
              end
            else forward env chan_id lvl q' codeblock sent1
        end
      else forward env chan_id lvl q' (message +:+ codeblock) sent
  end.

(** [log_discord(chan_id, client)] *)
Definition log_discord (env : Env) (chan_id : Z) (h : DiscordHandler)
    (sent : list Sent) : Outcome :=
  forward env chan_id (level h) (queue h) "" sent.

(** A group of consecutive lines and the send that carries it: the text
    message made of their code blocks, of at most 2000 characters, or, for
    a single line whose code block is longer than that, the file named
    [log.txt] whose content is the UTF-8 encoding of the line. *)
Definition carries (chan_id : Z) (g : list string) (s : Sent) : Prop :=
  g <> [] /\ to s = chan_id /\
  ((what s = Content (wrapped g) /\ (len (wrapped g) <= 2000)%nat) \/
   (exists text, g = [text] /\ (2000 < len (format_b_py text))%nat /\
                 what s = Attachment {| fp := encode_utf8 text;
                                        filename := "log.txt" |})).

(** *** [log_discord] as a task of the event loop

    A task gives up control only at an [await]: the three sends.  [cont]
    names the point where a suspended [log_discord] continues once its send
    has returned; everything between two such points runs without
    interruption. *)
Inductive cont : Type :=
| AfterFlush (text codeblock : string)   (* the send of the full buffer, inside
                                            the loop; [text] is still to place *)
| AfterFile                              (* the send of the file *)
| AfterFinal.                            (* the send after the loop *)

Inductive coroutine : Type :=
| Created                                (* create_task(...) done, not yet run *)
| Awaiting (p : payload) (k : cont)
| Finished.

Record Task : Type := { chan_id : Z; co : coroutine }.

(** The loop from its head, with the buffer [message], up to the next
    [await] or the end of the coroutine: the queue it leaves and where it
    stops. *)
Fixpoint drain (q : list string) (message : string) : list string * coroutine :=
  match q with
  | [] =>
      if (0 <? len message)%nat
      then ([], Awaiting (Content message) AfterFinal)
      else ([], Finished)
  | text :: q' =>
      let codeblock := format_b_py text in
      if (2000 <? len message + len codeblock)%nat then
        if (0 <? len message)%nat
        then (q', Awaiting (Content message) (AfterFlush text codeblock))
        else if (2000 <? len codeblock)%nat
        then (q', Awaiting (Attachment (log_file text)) AfterFile)
        else drain q' codeblock
      else drain q' (message +:+ codeblock)
  end.

(** The coroutine continues after the send it awaited has returned. *)
Definition resume (k : cont) (q : list string) : list string * coroutine :=
  match k with
  | AfterFlush text codeblock =>
      if (2000 <? len codeblock)%nat
      then (q, Awaiting (Attachment (log_file text)) AfterFile)
      else drain q codeblock
  | AfterFile => drain q ""
  | AfterFinal => (q, Finished)
  end.

(** The handler, the tasks [emit] created, and what the channel received. *)
Record Relay : Type := {
  handler : DiscordHandler;
  tasks : list Task;
  received : list Sent;
  reports : nat                          (* runs of the [except] clause *)
}.

(** What can happen next.  A [RuntimeError] that leaves [emit] goes to the
    caller of the logger; the relay is left with the line queued. *)
Inductive event : Type :=
| Log (env : Env) (record : LogRecord)   (* a logger passes a record to the handler *)
| Start (i : nat)                        (* the loop runs task [i] for the first time *)
| Returns (i : nat)                      (* the send task [i] awaits returns *)
| Raises (i : nat) (env : Env).          (* the send task [i] awaits raises *)

(** The task a call of [emit] leaves behind. *)
Definition spawned (o : emitted) : list Task :=
  match o with
  | Emitted (Some c) => [{| chan_id := c; co := Created |}]
  | Emitted None => []
  | RuntimeError => []
  end.

Definition set_queue (h : DiscordHandler) (q : list string) : DiscordHandler :=
  {| level := level h; queue := q |}.

Definition step (e : event) (s : Relay) : option Relay :=
  match e with
  | Log env record =>
      let '(h, o) := handle env record (handler s) in
      Some {| handler := h; tasks := tasks s ++ spawned o;
              received := received s; reports := reports s |}
  | Start i =>
      match tasks s !! i with
      | Some {| chan_id := c; co := Created |} =>
          let '(q, st) := drain (queue (handler s)) "" in
          Some {| handler := set_queue (handler s) q;
                  tasks := <[i := {| chan_id := c; co := st |}]> (tasks s);
                  received := received s; reports := reports s |}
      | _ => None
      end
  | Returns i =>
      match tasks s !! i with
      | Some {| chan_id := c; co := Awaiting p k |} =>
          let '(q, st) := resume k (queue (handler s)) in
          Some {| handler := set_queue (handler s) q;
                  tasks := <[i := {| chan_id := c; co := st |}]> (tasks s);
                  received := received s ++ [{| to := c; what := p |}];
                  reports := reports s |}
      | _ => None
      end
  | Raises i env =>
      match tasks s !! i with
      | Some {| chan_id := c; co := Awaiting p k |} =>
          let env' := {| event_loop := event_loop env; channel := channel env;
                         client_closed := client_closed env;
                         frames := other_code "emit" :: log_discord_code :: frames env;
                         loop_running := loop_running env |} in
          Some {| handler := fst (handle env' report (handler s));
                  tasks := <[i := {| chan_id := c; co := Finished |}]> (tasks s);
                  received := received s; reports := S (reports s) |}
      | _ => None
      end
  end.

(** A run: the events in the order they happen. *)
Fixpoint run (es : list event) (s : Relay) : option Relay :=
  match es with
  | [] => Some s
  | e :: es' =>
      match step e s with
      | Some s' => run es' s'
      | None => None
      end
  end.

(** The plugin right after [init()]. *)
Definition initial : Relay :=
  {| handler := init; tasks := []; received := []; reports := 0 |}.

(** A forwarding task is active from its creation until it finishes. *)
Definition active (t : Task) : bool :=
  match co t with Finished => false | _ => true end.

(** The plugin with a single task, in the state [st]. *)
Definition lone (lvl : Z) (q : list string) (c : Z) (st : coroutine)
    (r : list Sent) (n : nat) : Relay :=
  {| handler := {| level := lvl; queue := q |};
     tasks := [{| chan_id := c; co := st |}];
     received := r; reports := n |}.

Definition forwarders (s : Relay) : nat := length (filter (fun t => active t = true) (tasks s)).

End Relay.

(** *** Several calls in a row *)

(** [n] calls of [queue_pop()], one after the other: what they return and
    the handler they leave. *)
Fixpoint pops (n : nat) (h : DiscordHandler) : list (option string) * DiscordHandler :=
  match n with
  | O => ([], h)
  | S n' =>
      let '(r, h') := queue_pop h in
      let '(rs, h'') := pops n' h' in
      (r :: rs, h'')
  end.

(** [emit] for each record of a list in turn, each caller going on after
    its call whichever way it ended: the handler left, and how the calls
    ended. *)
Fixpoint emits (format : LogRecord -> string) (int : string -> option Z)
    (env : Env) (records : list LogRecord) (h : DiscordHandler)
    : DiscordHandler * list emitted :=
  match records with
  | [] => (h, [])
  | record :: rest =>
      let '(h', o) := emit format int env record h in
      let '(h'', ends) := emits format int env rest h' in
      (h'', o :: ends)
  end.

(** A task that will call [queue_pop()] again: one not yet started, or one
    suspended inside the loop. *)
Definition pending (t : Task) : bool :=
  match co t with
  | Created => true
  | Awaiting _ (AfterFlush _ _) => true
  | Awaiting _ AfterFile => true
  | Awaiting _ AfterFinal => false
  | Finished => false
  end.

(** The lines a suspended [log_discord] has popped and not yet placed. *)
Definition in_hand (k : cont) : list string :=
  match k with
  | AfterFlush text _ => [text]
  | AfterFile => []
  | AfterFinal => []
  end.

(** What the channel may receive: a text message of at most 2000
    characters, or a file named [log.txt]. *)
Definition acceptable (p : payload) : Prop :=
  match p with
  | Content message => (len message <= 2000)%nat
  | Attachment file => filename file = "log.txt"
  end.

(** What a task is about to send is acceptable to the channel. *)
Definition sends_acceptable (t : Task) : Prop :=
  match co t with
  | Awaiting p _ => acceptable p
  | _ => True
  end.

(** *** Instances of the surroundings, for running the definitions *)

(** Modelled from the spec: the code-block rendering
    [format("{!b:py}", text)] of util/discord.py, which is not among the
    sources: the line inside the fixed-width-text delimiters. *)
Definition codeblock_py (text : string) : string :=
  "```py" +:+ String "010" (text +:+ "```").

(** [text.encode("utf8")] on ASCII text. *)
Definition ascii_bytes (text : string) : list Byte.byte := list_byte_of_string text.

(** The formatter of [init()]: ["%(name)s %(levelname)s: %(message)s"]. *)
Definition formatted (record : LogRecord) : string :=
  name record +:+ " " +:+ levelname record +:+ ": " +:+ msg record.

Fixpoint digits (s : string) (acc : Z) : option Z :=
  match s with
  | EmptyString => Some acc
  | String a rest =>
      match Ascii.is_nat a with
      | Some d => digits rest (10 * acc + Z.of_nat d)
      | None => None
      end
  end.

(** [int(s)] on a string of ASCII digits; any other string is a
    [ValueError] here. *)
Definition int_digits (s : string) : option Z :=
  match s with
  | EmptyString => None
  | _ => digits s 0
  end.

(** A line of [n] characters. *)
Definition line_of (n : nat) : string := string_of_list_ascii (replicate n "x"%char).

(** Surroundings in which [emit] accepts a record: a running loop, channel
    ["42"], an open client, a caller outside [log_discord]. *)
Definition ready : Env :=
  {| event_loop := Some false; channel := Some "42"; client_closed := false;
     frames := [other_code "emit"; other_code "handle"; other_code "callHandlers"];
     loop_running := true |}.

(** The same surroundings before the loop runs: [get_event_loop()] gives
    an open loop, and no loop is running. *)
Definition idle : Env :=
  {| event_loop := Some false; channel := Some "42"; client_closed := false;
     frames := [other_code "emit"; other_code "handle"; other_code "callHandlers"];
     loop_running := false |}.

Definition error_record (text : string) : LogRecord :=
  {| name := "bot"; levelno := ERROR; levelname := "ERROR"; msg := text; extra := [] |}.

Definition warning_record (text : string) : LogRecord :=
  {| name := "bot"; levelno := 30; levelname := "WARNING"; msg := text; extra := [] |}.

(** A queue whose code blocks add up to more than 2000 characters, one of
    them alone over the limit. *)
Definition sample_queue : list string :=
  [line_of 1500; line_of 1500; line_of 2500; line_of 10; line_of 20].

Definition sample_handler : DiscordHandler := {| level := ERROR; queue := sample_queue |}.

(** Every send returns. *)
Definition reliable (sent : list Sent) (s : Sent) : bool := true.

(** No send returns. *)
Definition unreachable (sent : list Sent) (s : Sent) : bool := false.

(** Three records are logged, the task starts and takes two lines, which
    do not fit one message, and the send of the first one raises. *)
Definition failing_run : list event :=
  [Log ready (error_record (line_of 1500)); Log ready (error_record (line_of 1500));
   Log ready (error_record "z"); Start 0; Raises 0 ready].

(** The state [failing_run] ends in. *)
Definition stranded : Relay :=
  {| handler := {| level := ERROR; queue := ["bot ERROR: z"] |};
     tasks := [{| chan_id := 42; co := Finished |}];
     received := []; reports := 1 |}.

End DiscordLog.

(* ===================================================================== *)
(** ** src/util/restart.py *)
(* ===================================================================== *)

Module Restart.

Inductive severity : Type := INFO | CRITICAL.

(** What the two functions read and change: the module's global names of
    type [bool], the client, the event loop, the log, and the coroutine
    objects that were created by a call and dropped without being
    awaited. *)
Record Process : Type := {
  globals : gmap string bool;
  client_closed : bool;
  loop_stopped : bool;
  log : list (severity * string);
  never_awaited : nat
}.

(** The module body: [will_restart = False]. *)
Definition module_globals : gmap string bool := {[ "will_restart" := false ]}.

(** The frame of a running function: its local names, next to the
    process. *)
Record Frame : Type := { locals : gmap string bool; process : Process }.

Definition set_globals (g : gmap string bool) (p : Process) : Process :=
  {| globals := g; client_closed := client_closed p;
     loop_stopped := loop_stopped p; log := log p;
     never_awaited := never_awaited p |}.

(** [name = value] inside a function whose [global] statements declare
    [declared]: the name is bound in the module only when it is declared
    global, and in the frame otherwise. *)
Definition assign (declared : list string) (name : string) (value : bool)
    (f : Frame) : Frame :=
  if bool_decide (name ∈ declared)
  then {| locals := locals f;
          process := set_globals (<[name := value]> (globals (process f))) (process f) |}
  else {| locals := <[name := value]> (locals f); process := process f |}.

(** Reading a name inside a function: the frame's binding if the function
    binds the name, the module's otherwise. *)
Definition load (name : string) (f : Frame) : option bool :=
  match locals f !! name with
  | Some v => Some v
  | None => globals (process f) !! name
  end.

Definition logged (sev : severity) (text : string) (p : Process) : Process :=
  {| globals := globals p; client_closed := client_closed p;
     loop_stopped := loop_stopped p; log := log p ++ [(sev, text)];
     never_awaited := never_awaited p |}.

Definition on_process (g : Process -> Process) (f : Frame) : Frame :=
  {| locals := locals f; process := g (process f) |}.

(** [discord_client.client.close()] as [restart] has it, an expression
    statement without [await]: [close] is a coroutine function, so the
    call builds a coroutine object, which is dropped; nothing of its body
    runs, and the client stays as it is. *)
Definition close_client (p : Process) : Process :=
  {| globals := globals p; client_closed := client_closed p;
     loop_stopped := loop_stopped p; log := log p;
     never_awaited := S (never_awaited p) |}.

(** [asyncio.get_event_loop().stop()] *)
Definition stop_loop (p : Process) : Process :=
  {| globals := globals p; client_closed := client_closed p;
     loop_stopped := true; log := log p;
     never_awaited := never_awaited p |}.

(** The [global] statements of [restart]: it has none. *)
Definition restart_declared : list string := [].

(** [restart()]: the body runs in a fresh frame, and the process is what
    remains when it returns. *)
Definition restart (p : Process) : Process :=
  let f0 := {| locals := ∅; process := p |} in
  let f1 := on_process (logged INFO "Restart requested") f0 in
  let f2 := assign restart_declared "will_restart" true f1 in
  let f3 := if negb (client_closed (process f2)) then on_process close_client f2 else f2 in
  let f4 := on_process stop_loop f3 in
  process f4.

(** How a run of the hook ends. *)
Inductive ending : Type :=
| Returned
| Replaced (interpreter : string) (argv : list string)   (* os.execv took over *)
| Propagated.                                            (* an exception left the hook *)

Section Hook.

(** [sys.interpreter], [None] when [sys] has no such attribute. *)
Variable sys_interpreter : option string.
(** [sys.argv] *)
Variable sys_argv : list string.
(** Whether [os.execv(path, argv)] replaces the image; otherwise it raises. *)
Variable execv : string -> list string -> bool.

(** [atexit_restart_maybe()] *)
Definition atexit_restart_maybe (p : Process) : Process * ending :=
  let f := {| locals := ∅; process := p |} in
  match load "will_restart" f with
  | Some true =>
      match sys_interpreter with
      | None => (p, Propagated)
      | Some interpreter =>
          let p1 := logged INFO "Re-executing" p in
          if execv interpreter sys_argv
          then (p1, Replaced interpreter sys_argv)
          else (logged CRITICAL "Restart failed" p1, Returned)
      end
  | Some false => (p, Returned)
  | None => (p, Propagated)                              (* NameError *)
  end.

End Hook.

(** The process once the module is imported. *)
Definition fresh : Process :=
  {| globals := module_globals; client_closed := false;
     loop_stopped := false; log := []; never_awaited := 0 |}.

End Restart.

(* ===================================================================== *)
(** * Properties *)
(* ===================================================================== *)

Module PrivilegesSpec.
Import Privileges.

Lemma or_empty_default (o : option (list Z)) : or_empty o = default [] o.
Proof. by destruct o as [[|x l]|]. Qed.

Lemma truthy_contains (o : option (list Z)) (x : Z) :
  truthy o && contains x (default [] o) = contains x (default [] o).
Proof.
  destruct o as [[|y l]|]; simpl; try done;
    unfold contains; by rewrite bool_decide_eq_false_2 by set_solver.
Qed.

Lemma contains_true (x : Z) (l : list Z) : contains x l = true <-> x ∈ l.
Proof. unfold contains. by rewrite bool_decide_eq_true. Qed.

Lemma contains_false (x : Z) (l : list Z) : contains x l = false <-> x ∉ l.
Proof. unfold contains. by rewrite bool_decide_eq_false. Qed.

Lemma elem_of_default (o : option (list Z)) (x : Z) :
  x ∈ default [] o <-> exists l, o = Some l /\ x ∈ l.
Proof.
  destruct o as [l|]; simpl.
  - split; [eauto | by intros (? & [= <-] & ?)].
  - split; [by intros ?%elem_of_nil | by intros (? & ? & ?)].
Qed.

Lemma priv_exists_false (conf : PrivilegesConf) (priv : string) :
  priv_exists conf priv = false <->
  conf !! (priv, users) = None /\ conf !! (priv, roles) = None.
Proof.
  unfold priv_exists. rewrite orb_false_iff, !bool_decide_eq_false.
  destruct (conf !! (priv, users)), (conf !! (priv, roles)); intuition congruence.
Qed.

Lemma priv_exists_true (conf : PrivilegesConf) (priv : string) :
  priv_exists conf priv = true <->
  is_Some (conf !! (priv, users)) \/ is_Some (conf !! (priv, roles)).
Proof.
  unfold priv_exists. rewrite orb_true_iff, !bool_decide_eq_true.
  by rewrite <- !not_eq_None_Some.
Qed.

Lemma existsb_role (rs : list Z) (member_roles : list Role) :
  existsb (fun role => contains (role_id role) rs) member_roles = true <->
  exists role, role ∈ member_roles /\ role_id role ∈ rs.
Proof.
  rewrite existsb_exists. split; intros (role & Hin & Hc); exists role.
  - split; [by apply list_elem_of_In | by apply contains_true].
  - split; [by apply list_elem_of_In | by apply contains_true].
Qed.

(** C4. [has_privilege] answers true exactly when the actor's id is in the
    stored user list, or the actor is a [Member] (it has role context) and
    one of its roles has its id in the stored role list.  In particular it
    answers false for a privilege set that does not exist, and for an actor
    without role context only the user list counts. *)
Theorem C4_has_privilege_iff (conf : PrivilegesConf) (priv : string) (actor : Actor) :
  (has_privilege conf priv actor = true <->
     (exists us, conf !! (priv, users) = Some us /\ actor_id actor ∈ us) \/
     (exists member_roles rs role,
        actor = Member (actor_id actor) member_roles /\
        conf !! (priv, roles) = Some rs /\
        role ∈ member_roles /\ role_id role ∈ rs)) /\
  (priv_exists conf priv = false -> has_privilege conf priv actor = false) /\
  (forall id, actor = User id ->
     (has_privilege conf priv actor = true <->
      exists us, conf !! (priv, users) = Some us /\ id ∈ us)).
Proof.
  assert (Hiff : forall a,
    has_privilege conf priv a = true <->
     (exists us, conf !! (priv, users) = Some us /\ actor_id a ∈ us) \/
     (exists member_roles rs role,
        a = Member (actor_id a) member_roles /\
        conf !! (priv, roles) = Some rs /\
        role ∈ member_roles /\ role_id role ∈ rs)).
  { intros a. unfold has_privilege. rewrite truthy_contains.
    destruct (contains (actor_id a) (default [] (conf !! (priv, users)))) eqn:Hu.
    - apply contains_true, elem_of_default in Hu. tauto.
    - apply contains_false in Hu. rewrite elem_of_default in Hu.
      split.
      + intros H. right. destruct a as [i|i member_roles]; [done|].
        destruct (conf !! (priv, roles)) as [rs|] eqn:Hr; [|done].
        destruct (truthy (Some rs)); [|done].
        apply existsb_role in H as (role & ? & ?). by exists member_roles, rs, role.
      + intros [|(member_roles & rs & role & -> & Hr & Hin & Hrs)]; [done|].
        rewrite Hr. destruct rs as [|r rs]; [by apply elem_of_nil in Hrs|].
        simpl. apply existsb_role. eauto. }
  split; [apply Hiff|]. split.
  - intros [Hu Hr]%priv_exists_false. apply not_true_is_false.
    rewrite Hiff, Hu, Hr. by intros [(? & ? & ?)|(? & ? & ? & ? & ? & ?)].
  - intros id ->. rewrite Hiff. simpl.
    split; [|by left]. by intros [|(? & ? & ? & ? & ?)].
Qed.

Lemma validate_priv_ok (conf : PrivilegesConf) (priv : string) :
  priv_exists conf priv = true -> validate_priv priv conf = (conf, Ok tt).
Proof. unfold validate_priv. by intros ->. Qed.

Lemma validate_priv_raise (conf : PrivilegesConf) (priv : string) :
  priv_exists conf priv = false ->
  validate_priv priv conf = (conf, Raise (EUserError (DoesNotExist priv))).
Proof. unfold validate_priv. by intros ->. Qed.

Lemma list_remove_elem (x : Z) (l : list Z) :
  x ∈ l ->
  exists l1 l2, l = l1 ++ (x :: l2) /\ (x ∉ l1) /\ list_remove x l = Some (l1 ++ l2).
Proof.
  induction l as [|y l IH]; [by intros ?%elem_of_nil|].
  intros Hin. simpl. destruct (decide (y = x)) as [->|Hne].
  - exists [], l. split; [done|]. split; [apply not_elem_of_nil | done].
  - apply elem_of_cons in Hin as [->|Hin]; [done|].
    destruct (IH Hin) as (l1 & l2 & -> & Hnot & ->).
    exists (y :: l1), l2. split; [done|]. split; [|done].
    rewrite elem_of_cons. intros [->|?]; tauto.
Qed.

Lemma filter_ne_id (x : Z) (l : list Z) :
  x ∉ l -> filter (fun y => y ≠ x) l = l.
Proof.
  induction l as [|y l IH]; [done|].
  rewrite not_elem_of_cons. intros [Hne Hl].
  rewrite filter_cons_True by done. by rewrite IH.
Qed.

Lemma remove_first_NoDup (x : Z) (l1 l2 : list Z) :
  NoDup (l1 ++ (x :: l2)) ->
  (x ∉ (l1 ++ l2)) /\ NoDup (l1 ++ l2) /\
  l1 ++ l2 = filter (fun y => y ≠ x) (l1 ++ (x :: l2)).
Proof.
  intros Hnd. apply NoDup_app in Hnd as (Hn1 & Hdisj & Hn2).
  apply NoDup_cons in Hn2 as [Hx2 Hn2].
  assert (Hx1 : x ∉ l1) by (intros Hx; apply (Hdisj x Hx); by left).
  split; [rewrite elem_of_app; tauto|]. split.
  - apply NoDup_app. split; [done|]. split; [|done].
    intros y Hy1 Hy2. apply (Hdisj y Hy1). by right.
  - rewrite filter_app, filter_cons_False by tauto.
    by rewrite !filter_ne_id.
Qed.

(** The four membership commands on a set that does not exist. *)
Lemma membership_missing (conf : PrivilegesConf) (priv : string) (id : Z) :
  priv_exists conf priv = false ->
  add_user priv id conf = (conf, Raise (EUserError (DoesNotExist priv))) /\
  add_role priv id conf = (conf, Raise (EUserError (DoesNotExist priv))) /\
  remove_user priv id conf = (conf, Raise (EUserError (DoesNotExist priv))) /\
  remove_role priv id conf = (conf, Raise (EUserError (DoesNotExist priv))).
Proof.
  intros H.
  unfold add_user, add_role, remove_user, remove_role, priv_add, priv_remove, bind.
  by rewrite (validate_priv_raise _ _ H).
Qed.

Ltac run_cmd H :=
  unfold add_user, add_role, remove_user, remove_role, priv_add, priv_remove,
    priv_add_user, priv_add_role, priv_remove_user, priv_remove_role,
    bind, getitem, store, ret, raise, remove, setitem;
  rewrite (validate_priv_ok _ _ H); simpl; rewrite or_empty_default.

Lemma add_user_present (conf : PrivilegesConf) (priv : string) (id : Z) :
  priv_exists conf priv = true ->
  id ∈ default [] (conf !! (priv, users)) ->
  add_user priv id conf = (conf, Raise (EUserError (UserAlreadyIn id priv))).
Proof. intros H Hin. run_cmd H. by rewrite (proj2 (contains_true _ _) Hin). Qed.

Lemma add_user_fresh (conf : PrivilegesConf) (priv : string) (id : Z) :
  priv_exists conf priv = true ->
  id ∉ default [] (conf !! (priv, users)) ->
  add_user priv id conf =
    (<[(priv, users) := default [] (conf !! (priv, users)) ++ [id]]> conf,
     Ok (AddedUser id priv)).
Proof. intros H Hin. run_cmd H. by rewrite (proj2 (contains_false _ _) Hin). Qed.

Lemma add_role_present (conf : PrivilegesConf) (priv : string) (id : Z) :
  priv_exists conf priv = true ->
  id ∈ default [] (conf !! (priv, roles)) ->
  add_role priv id conf = (conf, Raise (EUserError (RoleAlreadyIn id priv))).
Proof. intros H Hin. run_cmd H. by rewrite (proj2 (contains_true _ _) Hin). Qed.

Lemma add_role_fresh (conf : PrivilegesConf) (priv : string) (id : Z) :
  priv_exists conf priv = true ->
  id ∉ default [] (conf !! (priv, roles)) ->
  add_role priv id conf =
    (<[(priv, roles) := default [] (conf !! (priv, roles)) ++ [id]]> conf,
     Ok (AddedRole id priv)).
Proof. intros H Hin. run_cmd H. by rewrite (proj2 (contains_false _ _) Hin). Qed.

Lemma remove_user_absent (conf : PrivilegesConf) (priv : string) (id : Z) :
  priv_exists conf priv = true ->
  id ∉ default [] (conf !! (priv, users)) ->
  remove_user priv id conf = (conf, Raise (EUserError (UserNotIn id priv))).
Proof. intros H Hin. run_cmd H. by rewrite (proj2 (contains_false _ _) Hin). Qed.

Lemma remove_user_present (conf : PrivilegesConf) (priv : string) (id : Z) :
  priv_exists conf priv = true ->
  id ∈ default [] (conf !! (priv, users)) ->
  exists l1 l2,
    default [] (conf !! (priv, users)) = l1 ++ (id :: l2) /\ (id ∉ l1) /\
    remove_user priv id conf =
      (<[(priv, users) := l1 ++ l2]> conf, Ok (RemovedUser id priv)).
Proof.
  intros H Hin. destruct (list_remove_elem _ _ Hin) as (l1 & l2 & Heq & Hnot & Hrm).
  exists l1, l2. split; [done|]. split; [done|].
  run_cmd H. by rewrite (proj2 (contains_true _ _) Hin), Hrm.
Qed.

Lemma remove_role_absent (conf : PrivilegesConf) (priv : string) (id : Z) :
  priv_exists conf priv = true ->
  id ∉ default [] (conf !! (priv, roles)) ->
  remove_role priv id conf = (conf, Raise (EUserError (RoleNotIn id priv))).
Proof. intros H Hin. run_cmd H. by rewrite (proj2 (contains_false _ _) Hin). Qed.

Lemma remove_role_present (conf : PrivilegesConf) (priv : string) (id : Z) :
  priv_exists conf priv = true ->
  id ∈ default [] (conf !! (priv, roles)) ->
  exists l1 l2,
    default [] (conf !! (priv, roles)) = l1 ++ (id :: l2) /\ (id ∉ l1) /\
    remove_role priv id conf =
      (<[(priv, roles) := l1 ++ l2]> conf, Ok (RemovedRole id priv)).
Proof.
  intros H Hin. destruct (list_remove_elem _ _ Hin) as (l1 & l2 & Heq & Hnot & Hrm).
  exists l1, l2. split; [done|]. split; [done|].
  run_cmd H. by rewrite (proj2 (contains_true _ _) Hin), Hrm.
Qed.

Lemma NoDup_snoc (l : list Z) (x : Z) : x ∉ l -> NoDup l -> NoDup (l ++ [x]).
Proof.
  intros Hx Hl. apply NoDup_app. split; [done|]. split.
  - intros y Hy ->%list_elem_of_singleton. done.
  - apply NoDup_singleton.
Qed.

(** C6. [priv add ... user|role] and [priv remove ... user|role]: on a set
    that does not exist all four raise "does not exist"; on an existing set,
    adding an id already present and removing an id that is absent raise;
    otherwise adding appends the id at the end of the stored list (order
    kept, and a duplicate-free list stays duplicate-free) and removing drops
    the id from the list (the other ids keep their order; from a
    duplicate-free list the id is gone).  Every raising command leaves the
    stored configuration as it was. *)
Theorem C6_membership_commands (conf : PrivilegesConf) (priv : string) (id : Z) :
  let us := default [] (conf !! (priv, users)) in
  let rs := default [] (conf !! (priv, roles)) in
  (priv_exists conf priv = false ->
     add_user priv id conf = (conf, Raise (EUserError (DoesNotExist priv))) /\
     add_role priv id conf = (conf, Raise (EUserError (DoesNotExist priv))) /\
     remove_user priv id conf = (conf, Raise (EUserError (DoesNotExist priv))) /\
     remove_role priv id conf = (conf, Raise (EUserError (DoesNotExist priv)))) /\
  (priv_exists conf priv = true ->
     (id ∈ us ->
        add_user priv id conf = (conf, Raise (EUserError (UserAlreadyIn id priv)))) /\
     (id ∉ us ->
        add_user priv id conf =
          (<[(priv, users) := us ++ [id]]> conf, Ok (AddedUser id priv)) /\
        (NoDup us -> NoDup (us ++ [id]))) /\
     (id ∉ us ->
        remove_user priv id conf = (conf, Raise (EUserError (UserNotIn id priv)))) /\
     (id ∈ us ->
        exists l1 l2, us = l1 ++ (id :: l2) /\ (id ∉ l1) /\
          remove_user priv id conf =
            (<[(priv, users) := l1 ++ l2]> conf, Ok (RemovedUser id priv)) /\
          (NoDup us -> (id ∉ (l1 ++ l2)) /\ NoDup (l1 ++ l2))) /\
     (id ∈ rs ->
        add_role priv id conf = (conf, Raise (EUserError (RoleAlreadyIn id priv)))) /\
     (id ∉ rs ->
        add_role priv id conf =
          (<[(priv, roles) := rs ++ [id]]> conf, Ok (AddedRole id priv)) /\
        (NoDup rs -> NoDup (rs ++ [id]))) /\
     (id ∉ rs ->
        remove_role priv id conf = (conf, Raise (EUserError (RoleNotIn id priv)))) /\
     (id ∈ rs ->
        exists l1 l2, rs = l1 ++ (id :: l2) /\ (id ∉ l1) /\
          remove_role priv id conf =
            (<[(priv, roles) := l1 ++ l2]> conf, Ok (RemovedRole id priv)) /\
          (NoDup rs -> (id ∉ (l1 ++ l2)) /\ NoDup (l1 ++ l2)))).
Proof.
  intros us rs. split; [apply membership_missing|].
  intros Hex. repeat apply conj.
  - by apply add_user_present.
  - intros Hin. split; [by apply add_user_fresh | by apply NoDup_snoc].
  - by apply remove_user_absent.
  - intros Hin. destruct (remove_user_present _ _ _ Hex Hin) as (l1 & l2 & Heq & Hn & Hrm).
    exists l1, l2. do 3 (split; [done|]).
    intros Hnd. subst us. rewrite Heq in Hnd.
    apply remove_first_NoDup in Hnd. tauto.
  - by apply add_role_present.
  - intros Hin. split; [by apply add_role_fresh | by apply NoDup_snoc].
  - by apply remove_role_absent.
  - intros Hin. destruct (remove_role_present _ _ _ Hex Hin) as (l1 & l2 & Heq & Hn & Hrm).
    exists l1, l2. do 3 (split; [done|]).
    intros Hnd. subst rs. rewrite Heq in Hnd.
    apply remove_first_NoDup in Hnd. tauto.
Qed.

Lemma priv_show_missing (fetch_user : Z -> option string)
    (guild : option (list Role)) (conf : PrivilegesConf) (priv : string) :
  priv_exists conf priv = false ->
  priv_show fetch_user guild priv conf = (conf, Raise (EUserError (DoesNotExist priv))).
Proof. intros H. unfold priv_show, bind. by rewrite (validate_priv_raise _ _ H). Qed.

Lemma priv_delete_missing (conf : PrivilegesConf) (priv : string) :
  priv_exists conf priv = false ->
  priv_delete priv conf = (conf, Raise (EUserError (DoesNotExist priv))).
Proof. intros H. unfold priv_delete, bind. by rewrite (validate_priv_raise _ _ H). Qed.

(** Every command other than [priv new] raises "does not exist" on a name
    without a set, and leaves the configuration alone. *)
Lemma invoke_missing (fetch_user : Z -> option string)
    (guild : option (list Role)) (conf : PrivilegesConf) (c : command) :
  priv_exists conf (target c) = false ->
  is_new c = false ->
  invoke fetch_user guild c conf =
    (conf, Raise (EUserError (DoesNotExist (target c)))).
Proof.
  intros H Hnew. destruct c as [p|p|p|p i|p i|p i|p i]; simpl in *; try done.
  - by apply priv_delete_missing.
  - by apply priv_show_missing.
  - by apply membership_missing.
  - by apply membership_missing.
  - by apply membership_missing.
  - by apply membership_missing.
Qed.

Lemma priv_new_fresh (conf : PrivilegesConf) (priv : string) :
  priv_exists conf priv = false ->
  priv_new priv conf =
    (<[(priv, roles) := []]> (<[(priv, users) := []]> conf), Ok (Created priv)).
Proof. intros H. unfold priv_new. by rewrite H. Qed.

Lemma priv_delete_existing (conf : PrivilegesConf) (priv : string) :
  priv_exists conf priv = true ->
  priv_delete priv conf =
    (delete (priv, roles) (delete (priv, users) conf), Ok (Removed priv)).
Proof. intros H. unfold priv_delete, bind. by rewrite (validate_priv_ok _ _ H). Qed.

(** C7. [priv new] raises "already exists" when either stored list of the
    name is set, and otherwise stores the empty list under both keys, after
    which [priv show] lists no member; [priv delete] raises "does not exist"
    on a name without a set, and otherwise unsets both keys, after which
    every command that works on an existing set (delete, show, add, remove)
    raises "does not exist" for that name and changes nothing.  Other names
    are not touched. *)
Theorem C7_create_delete (conf : PrivilegesConf) (priv : string) :
  (priv_exists conf priv = true ->
     priv_new priv conf = (conf, Raise (EUserError (AlreadyExists priv)))) /\
  (priv_exists conf priv = false ->
     exists conf',
       priv_new priv conf = (conf', Ok (Created priv)) /\
       conf' !! (priv, users) = Some [] /\
       conf' !! (priv, roles) = Some [] /\
       (forall p f, p ≠ priv -> conf' !! (p, f) = conf !! (p, f)) /\
       (forall fetch_user guild,
          priv_show fetch_user guild priv conf' = (conf', Ok (Includes priv [])))) /\
  (priv_exists conf priv = false ->
     priv_delete priv conf = (conf, Raise (EUserError (DoesNotExist priv)))) /\
  (priv_exists conf priv = true ->
     exists conf',
       priv_delete priv conf = (conf', Ok (Removed priv)) /\
       conf' !! (priv, users) = None /\
       conf' !! (priv, roles) = None /\
       priv_exists conf' priv = false /\
       (forall p f, p ≠ priv -> conf' !! (p, f) = conf !! (p, f)) /\
       (forall fetch_user guild c,
          target c = priv -> is_new c = false ->
          invoke fetch_user guild c conf' =
            (conf', Raise (EUserError (DoesNotExist priv))))).
Proof.
  repeat apply conj.
  - intros H. unfold priv_new. by rewrite H.
  - intros H. eexists. split; [by apply priv_new_fresh|].
    assert (Hu : (<[(priv, roles) := []]> (<[(priv, users) := []]> conf) : PrivilegesConf)
                   !! (priv, users) = Some []).
    { rewrite lookup_insert_ne by done. apply lookup_insert_eq. }
    assert (Hr : (<[(priv, roles) := []]> (<[(priv, users) := []]> conf) : PrivilegesConf)
                   !! (priv, roles) = Some []) by apply lookup_insert_eq.
    split; [done|]. split; [done|]. split.
    + intros p f Hp. rewrite !lookup_insert_ne by congruence. done.
    + intros fetch_user guild. unfold priv_show, bind, getitem, ret.
      rewrite validate_priv_ok.
      * by rewrite Hu, Hr.
      * apply priv_exists_true. left. by rewrite Hu.
  - apply priv_delete_missing.
  - intros H. eexists. split; [by apply priv_delete_existing|].
    assert (Hu : (delete (priv, roles) (delete (priv, users) conf) : PrivilegesConf)
                   !! (priv, users) = None).
    { rewrite lookup_delete_ne by done. apply lookup_delete_eq. }
    assert (Hr : (delete (priv, roles) (delete (priv, users) conf) : PrivilegesConf)
                   !! (priv, roles) = None) by apply lookup_delete_eq.
    assert (Hgone : priv_exists (delete (priv, roles) (delete (priv, users) conf)) priv
                    = false) by (by apply priv_exists_false).
    split; [done|]. split; [done|]. split; [done|]. split.
    + intros p f Hp. rewrite !lookup_delete_ne by congruence. done.
    + intros fetch_user guild c <- Hnew. by apply invoke_missing.
Qed.

(** C10. A set that exists through one stored list only: adding to the
    unset list takes it as empty and stores the one-element list; removing
    from the unset list raises "already not in priv", the error of an absent
    member, and not "does not exist". *)
Theorem C10_one_list_unset (conf : PrivilegesConf) (priv : string) (id : Z) :
  (conf !! (priv, users) = None -> is_Some (conf !! (priv, roles)) ->
     add_user priv id conf =
       (<[(priv, users) := [id]]> conf, Ok (AddedUser id priv)) /\
     remove_user priv id conf =
       (conf, Raise (EUserError (UserNotIn id priv)))) /\
  (conf !! (priv, roles) = None -> is_Some (conf !! (priv, users)) ->
     add_role priv id conf =
       (<[(priv, roles) := [id]]> conf, Ok (AddedRole id priv)) /\
     remove_role priv id conf =
       (conf, Raise (EUserError (RoleNotIn id priv)))).
Proof.
  split; intros Hnone Hsome.
  - assert (Hex : priv_exists conf priv = true) by (apply priv_exists_true; by right).
    assert (Hnot : id ∉ default [] (conf !! (priv, users)))
      by (rewrite Hnone; apply not_elem_of_nil).
    split.
    + rewrite (add_user_fresh _ _ _ Hex Hnot). by rewrite Hnone.
    + by apply remove_user_absent.
  - assert (Hex : priv_exists conf priv = true) by (apply priv_exists_true; by left).
    assert (Hnot : id ∉ default [] (conf !! (priv, roles)))
      by (rewrite Hnone; apply not_elem_of_nil).
    split.
    + rewrite (add_role_fresh _ _ _ Hex Hnot). by rewrite Hnone.
    + by apply remove_role_absent.
Qed.

(** *** The statements at concrete inputs *)

Example has_privilege_by_user : has_privilege sample_conf "mods" (User 2) = true.
Proof. vm_compute. reflexivity. Qed.

Example has_privilege_by_role :
  has_privilege sample_conf "staff" (Member 7 [moderator]) = true.
Proof. vm_compute. reflexivity. Qed.

Example has_privilege_no_role_context :
  has_privilege sample_conf "staff" (User 7) = false.
Proof. vm_compute. reflexivity. Qed.

Example has_privilege_missing_set :
  has_privilege sample_conf "admins" (Member 1 [moderator]) = false.
Proof. vm_compute. reflexivity. Qed.

Lemma mods_exists : priv_exists sample_conf "mods" = true.
Proof. vm_compute. reflexivity. Qed.

Lemma staff_exists : priv_exists sample_conf "staff" = true.
Proof. vm_compute. reflexivity. Qed.

Lemma admins_missing : priv_exists sample_conf "admins" = false.
Proof. vm_compute. reflexivity. Qed.

(** C4 at [sample_conf]: a listed user, and a name without a set. *)
Lemma C4_witness :
  has_privilege sample_conf "mods" (User 2) = true /\
  (priv_exists sample_conf "admins" = false ->
   has_privilege sample_conf "admins" (User 2) = false).
Proof.
  destruct (C4_has_privilege_iff sample_conf "mods" (User 2)) as (H1 & _ & _).
  destruct (C4_has_privilege_iff sample_conf "admins" (User 2)) as (_ & H2 & _).
  split; [|exact H2].
  apply H1. left. exists [1; 2]. split; [reflexivity|].
  apply list_elem_of_In. simpl. tauto.
Defined.

(** C6 at [sample_conf], for the id 2: a user of ["mods"], not a role of
    it, and the name ["admins"] without a set. *)
Lemma C6_witness :
  priv_exists sample_conf "mods" = true /\
  add_user "mods" 2 sample_conf =
    (sample_conf, Raise (EUserError (UserAlreadyIn 2 "mods"))) /\
  add_role "mods" 2 sample_conf =
    (<[("mods", roles) := [10; 2]]> sample_conf, Ok (AddedRole 2 "mods")) /\
  remove_role "mods" 2 sample_conf =
    (sample_conf, Raise (EUserError (RoleNotIn 2 "mods"))) /\
  add_user "admins" 2 sample_conf =
    (sample_conf, Raise (EUserError (DoesNotExist "admins"))).
Proof.
  destruct (C6_membership_commands sample_conf "mods" 2) as [_ H].
  destruct (H mods_exists) as (H1 & _ & _ & _ & _ & H6 & H7 & _).
  destruct (C6_membership_commands sample_conf "admins" 2) as [H0 _].
  destruct (H0 admins_missing) as (H8 & _).
  assert (Hin : 2 ∈ default [] (sample_conf !! ("mods", users))).
  { replace (default [] (sample_conf !! ("mods", users))) with [1; 2]
      by (vm_compute; reflexivity).
    set_solver. }
  assert (Hnot : 2 ∉ default [] (sample_conf !! ("mods", roles))).
  { replace (default [] (sample_conf !! ("mods", roles))) with [10]
      by (vm_compute; reflexivity).
    set_solver. }
  split; [exact mods_exists|]. split; [exact (H1 Hin)|].
  split; [exact (proj1 (H6 Hnot))|]. split; [exact (H7 Hnot) | exact H8].
Defined.

(** C7 at [sample_conf]: ["mods"] exists, ["admins"] does not. *)
Lemma C7_witness :
  priv_exists sample_conf "admins" = false /\
  priv_exists sample_conf "mods" = true /\
  priv_new "mods" sample_conf =
    (sample_conf, Raise (EUserError (AlreadyExists "mods"))) /\
  priv_delete "admins" sample_conf =
    (sample_conf, Raise (EUserError (DoesNotExist "admins"))) /\
  (exists conf',
     priv_new "admins" sample_conf = (conf', Ok (Created "admins")) /\
     forall fetch_user guild,
       priv_show fetch_user guild "admins" conf' = (conf', Ok (Includes "admins" []))) /\
  (exists conf',
     priv_delete "mods" sample_conf = (conf', Ok (Removed "mods")) /\
     forall fetch_user guild c,
       target c = "mods" -> is_new c = false ->
       invoke fetch_user guild c conf' =
         (conf', Raise (EUserError (DoesNotExist "mods")))).
Proof.
  destruct (C7_create_delete sample_conf "mods") as (H1 & _ & _ & H4).
  destruct (C7_create_delete sample_conf "admins") as (_ & H2 & H3 & _).
  split; [exact admins_missing|]. split; [exact mods_exists|].
  split; [exact (H1 mods_exists)|]. split; [exact (H3 admins_missing)|]. split.
  - destruct (H2 admins_missing) as (conf' & Hn & _ & _ & _ & Hs). by exists conf'.
  - destruct (H4 mods_exists) as (conf' & Hd & _ & _ & _ & _ & Hi). by exists conf'.
Defined.

(** C10 at [sample_conf]: ["staff"] has a role list and no user list. *)
Lemma C10_witness :
  sample_conf !! ("staff", users) = None /\
  is_Some (sample_conf !! ("staff", roles)) /\
  add_user "staff" 5 sample_conf =
    (<[("staff", users) := [5]]> sample_conf, Ok (AddedUser 5 "staff")) /\
  remove_user "staff" 5 sample_conf =
    (sample_conf, Raise (EUserError (UserNotIn 5 "staff"))).
Proof.
  assert (Hn : sample_conf !! ("staff", users) = None) by (vm_compute; reflexivity).
  assert (Hs : is_Some (sample_conf !! ("staff", roles))) by (exists [10]; vm_compute; reflexivity).
  split; [exact Hn|]. split; [exact Hs|].
  exact (proj1 (C10_one_list_unset sample_conf "staff" 5) Hn Hs).
Defined.

End PrivilegesSpec.

Module DiscordLogSpec.
Import DiscordLog.

Section Emit.

Variable format : LogRecord -> string.
Variable int : string -> option Z.

Lemma in_log_discord (fs : list code) :
  existsb is_log_discord fs = true <-> log_discord_code ∈ fs.
Proof.
  rewrite existsb_exists. split.
  - intros ([|] & Hin & Hc); [by apply list_elem_of_In | done].
  - intros Hin. exists log_discord_code. split; [by apply list_elem_of_In | done].
Qed.

Lemma emit_level (env : Env) (record : LogRecord) (h : DiscordHandler) :
  level (fst (emit format int env record h)) = level h.
Proof.
  unfold emit.
  repeat match goal with
         | |- context [if ?b then _ else _] => destruct b
         | |- context [match ?x with _ => _ end] => destruct x
         end; done.
Qed.

Lemma emit_marked (env : Env) (record : LogRecord) (h : DiscordHandler) :
  "no_discord" ∈ extra record -> emit format int env record h = (h, Emitted None).
Proof.
  intros Hm. unfold emit, hasattr. by rewrite bool_decide_eq_true_2.
Qed.

Lemma handle_report (env : Env) (h : DiscordHandler) :
  handle format int env report h = (h, Emitted None).
Proof.
  unfold handle. destruct (level h <=? levelno report); [|done].
  apply emit_marked. simpl. apply list_elem_of_singleton. done.
Qed.

(** What [handle] can do to the handler: nothing, or append the formatted
    record; on a queue that was empty it then creates a task, or fails to
    outside a running loop. *)
Lemma handle_cases (env : Env) (record : LogRecord) (h : DiscordHandler) :
  handle format int env record h = (h, Emitted None) \/
  (level h <= levelno record /\
   exists c,
     handle format int env record h =
       ({| level := level h; queue := queue h ++ [format record] |},
        match queue h with
        | [] => if loop_running env then Emitted (Some c) else RuntimeError
        | _ :: _ => Emitted None
        end)).
Proof.
  unfold handle. destruct (Z.leb_spec (level h) (levelno record)) as [Hle|]; [|by left].
  unfold emit.
  destruct (hasattr record "no_discord"); [by left|].
  destruct (event_loop env) as [[|]|]; try (by left).
  destruct (channel env) as [c|]; [|by left].
  destruct (int c) as [chan_id|]; [|by left].
  destruct (client_closed env); [by left|].
  destruct (existsb is_log_discord (frames env)); [by left|].
  right. split; [done|]. exists chan_id. by destruct (queue h).
Qed.

(** C8. [emit] returns without touching the queue, without creating a
    task and without raising when the record carries the [no_discord]
    attribute, when the event loop cannot be obtained or is closed, when no
    channel is configured, when the configured channel is not an integer,
    when the client is closed, or when a frame of [log_discord] is on the
    call stack; in every other case it appends the formatted record to the
    queue.  After the append it returns without a task when the queue was
    not empty; when the queue was empty it creates the forwarding task and
    returns inside a running loop, and outside one the [RuntimeError] of
    [asyncio.create_task] leaves [emit], the line staying queued. *)
Theorem C8_emit_drops_or_appends (env : Env) (record : LogRecord) (h : DiscordHandler) :
  let dropped :=
    "no_discord" ∈ extra record \/
    event_loop env = None \/ event_loop env = Some true \/
    channel env = None \/
    (exists c, channel env = Some c /\ int c = None) \/
    client_closed env = true \/
    log_discord_code ∈ frames env in
  (dropped -> emit format int env record h = (h, Emitted None)) /\
  (~ dropped ->
     exists c chan_id,
       channel env = Some c /\ int c = Some chan_id /\
       emit format int env record h =
         ({| level := level h; queue := queue h ++ [format record] |},
          match queue h with
          | _ :: _ => Emitted None
          | [] => if loop_running env then Emitted (Some chan_id) else RuntimeError
          end)).
Proof.
  intros dropped. subst dropped. unfold emit, hasattr.
  destruct (decide ("no_discord" ∈ extra record)) as [Hm|Hm].
  { rewrite bool_decide_eq_true_2 by done. split; [done | tauto]. }
  rewrite bool_decide_eq_false_2 by done.
  destruct (event_loop env) as [[|]|]; try (split; [done | tauto]).
  destruct (channel env) as [c|]; [|split; [done | tauto]].
  destruct (int c) as [chan_id|] eqn:Hint; [|split; [done | naive_solver]].
  destruct (client_closed env); [split; [done | tauto]|].
  destruct (existsb is_log_discord (frames env)) eqn:Hf.
  { apply in_log_discord in Hf. split; [done | tauto]. }
  assert (Hnf : log_discord_code ∉ frames env).
  { intros Hin%in_log_discord. congruence. }
  split.
  - intros [?|[?|[?|[?|[(c' & [= <-] & ?)|[?|?]]]]]]; congruence || done.
  - intros _. exists c, chan_id. by destruct (queue h).
Qed.

End Emit.

Section Machine.

Variable format_b_py : string -> string.
Variable encode_utf8 : string -> list Byte.byte.
Variable format : LogRecord -> string.
Variable int : string -> option Z.

Local Abbreviation step := (step format_b_py encode_utf8 format int).
Local Abbreviation run := (run format_b_py encode_utf8 format int).
Local Abbreviation drain := (drain format_b_py encode_utf8).
Local Abbreviation resume := (resume format_b_py encode_utf8).
Local Abbreviation handle := (handle format int).

(** The loop only ever takes lines from the front of the queue. *)
Lemma drain_suffix (q : list string) (message : string) :
  exists taken, q = taken ++ fst (drain q message).
Proof.
  revert message. induction q as [|text q IH]; intros message; simpl.
  - exists []. by destruct (0 <? len message)%nat.
  - destruct (2000 <? len message + len (format_b_py text))%nat.
    + destruct (0 <? len message)%nat; [by exists [text]|].
      destruct (2000 <? len (format_b_py text))%nat; [by exists [text]|].
      destruct (IH (format_b_py text)) as [taken Ht].
      exists (text :: taken). simpl. by rewrite <- Ht.
    + destruct (IH (message +:+ format_b_py text)) as [taken Ht].
      exists (text :: taken). simpl. by rewrite <- Ht.
Qed.

Lemma resume_suffix (k : cont) (q : list string) :
  exists taken, q = taken ++ fst (resume k q).
Proof.
  destruct k as [text codeblock| |]; simpl.
  - destruct (2000 <? len codeblock)%nat; [by exists []|]. apply drain_suffix.
  - apply drain_suffix.
  - by exists [].
Qed.

Lemma step_level (e : event) (s s' : Relay) :
  step e s = Some s' -> level (handler s') = level (handler s).
Proof.
  destruct e as [env record|i|i|i env]; simpl.
  - destruct (handle env record (handler s)) as [h o] eqn:Hh. intros [= <-]. simpl.
    change h with (fst (h, o)). rewrite <- Hh. unfold DiscordLog.handle.
    destruct (level (handler s) <=? levelno record); [apply emit_level | done].
  - destruct (tasks s !! i) as [[c [|p k|]]|]; try done.
    destruct (drain _ _). by intros [= <-].
  - destruct (tasks s !! i) as [[c [|p k|]]|]; try done.
    destruct (resume _ _). by intros [= <-].
  - destruct (tasks s !! i) as [[c [|p k|]]|]; try done.
    intros [= <-]. simpl. by rewrite handle_report.
Qed.

(** Every line in the queue after a step was there before, or is the
    formatted record of a [Log] event that reached the handler's level. *)
Lemma step_queue (Q : string -> Prop) (e : event) (s s' : Relay) :
  step e s = Some s' ->
  (forall env record,
     e = Log env record -> level (handler s) <= levelno record -> Q (format record)) ->
  Forall Q (queue (handler s)) -> Forall Q (queue (handler s')).
Proof.
  destruct e as [env record|i|i|i env]; simpl; intros Hstep HQ Hq.
  - destruct (handle_cases format int env record (handler s))
      as [Hh|(Hle & c & Hh)]; rewrite Hh in Hstep; injection Hstep as <-; simpl; [done|].
    apply Forall_app. split; [done|]. apply Forall_singleton. eauto.
  - destruct (tasks s !! i) as [[c [|p k|]]|]; try done.
    destruct (drain_suffix (queue (handler s)) "") as [taken Ht].
    destruct (drain _ _) as [q st]. injection Hstep as <-. simpl in *.
    rewrite Ht in Hq. by apply Forall_app in Hq as [_ ?].
  - destruct (tasks s !! i) as [[c [|p k|]]|]; try done.
    destruct (resume_suffix k (queue (handler s))) as [taken Ht].
    destruct (resume _ _) as [q st]. injection Hstep as <-. simpl in *.
    rewrite Ht in Hq. by apply Forall_app in Hq as [_ ?].
  - destruct (tasks s !! i) as [[c [|p k|]]|]; try done.
    injection Hstep as <-. simpl. by rewrite handle_report.
Qed.

Lemma run_level (es : list event) (s s' : Relay) :
  run es s = Some s' -> level (handler s') = level (handler s).
Proof.
  revert s. induction es as [|e es IH]; intros s; simpl.
  - by intros [= <-].
  - destruct (step e s) as [s1|] eqn:Hstep; [|done].
    intros Hrun. rewrite (IH _ Hrun). by apply (step_level e).
Qed.

Lemma run_queue (Q : string -> Prop) (es : list event) (s s' : Relay) :
  run es s = Some s' ->
  (forall env record,
     Log env record ∈ es -> level (handler s) <= levelno record -> Q (format record)) ->
  Forall Q (queue (handler s)) -> Forall Q (queue (handler s')).
Proof.
  revert s. induction es as [|e es IH]; intros s; simpl.
  - by intros [= <-].
  - destruct (step e s) as [s1|] eqn:Hstep; [|done].
    intros Hrun HQ Hq. apply (IH _ Hrun).
    + intros env record Hin. rewrite (step_level _ _ _ Hstep).
      apply (HQ env). by right.
    + apply (step_queue Q e s s1 Hstep); [|done].
      intros env record ->. apply (HQ env). by left.
Qed.

(** A record below the handler's level changes nothing. *)
Lemma step_log_below (env : Env) (record : LogRecord) (s : Relay) :
  levelno record < level (handler s) -> step (Log env record) s = Some s.
Proof.
  intros Hlt. simpl. unfold DiscordLog.handle.
  rewrite (proj2 (Z.leb_gt _ _) Hlt). simpl. rewrite app_nil_r. by destruct s.
Qed.

Lemma run_only_below (es : list event) (s : Relay) :
  (forall env record, Log env record ∈ es -> levelno record < ERROR) ->
  run es initial = Some s -> s = initial.
Proof.
  induction es as [|e es IH]; simpl; intros Hes.
  - by intros [= <-].
  - destruct e as [env record|i|i|i env]; try done.
    rewrite step_log_below by (apply (Hes env); by left).
    apply IH. intros env' record' Hin. apply (Hes env'). by right.
Qed.

(** C9. [init()] attaches the handler with level [ERROR].  In every state
    the plugin can reach from there the level is still [ERROR]; a record
    of lower severity handed to the handler leaves the whole state as it is
    (nothing queued, no task created, nothing sent); every queued line is
    the formatted text of a logged record of severity [ERROR] or higher;
    and a run in which only records below [ERROR] are logged never leaves
    the initial state. *)
Theorem C9_below_error_never_queued (es : list event) (s : Relay) :
  run es initial = Some s ->
  level (handler s) = ERROR /\
  (forall env record,
     levelno record < ERROR -> step (Log env record) s = Some s) /\
  Forall (fun text => exists env record,
            Log env record ∈ es /\ ERROR <= levelno record /\ text = format record)
         (queue (handler s)) /\
  ((forall env record, Log env record ∈ es -> levelno record < ERROR) -> s = initial).
Proof.
  intros Hrun.
  assert (Hlvl : level (handler s) = ERROR) by apply (run_level _ _ _ Hrun).
  split; [done|]. split; [|split].
  - intros env record Hlt. apply step_log_below. by rewrite Hlvl.
  - apply (run_queue _ es initial s Hrun); [|by apply Forall_nil].
    intros env record Hin Hle. by exists env, record.
  - intros Hes. by apply (run_only_below es).
Qed.

Lemma forwarders_replace (ts : list Task) (i : nat) (t t' : Task) :
  ts !! i = Some t -> active t = true ->
  (length (filter (fun t => active t = true) (<[i := t']> ts))
   <= length (filter (fun t => active t = true) ts))%nat.
Proof.
  revert i. induction ts as [|t0 ts IH]; intros [|i]; simpl; try done.
  - intros [= ->] Ht. rewrite (filter_cons_True _ t ts) by done.
    rewrite filter_cons. destruct (decide _); simpl; lia.
  - intros Hi Ht. specialize (IH i Hi Ht).
    rewrite !filter_cons. destruct (decide _); simpl; lia.
Qed.

Lemma forwarders_spawned (ts : list Task) (o : emitted) :
  length (filter (fun t => active t = true) (ts ++ spawned o)) =
  (length (filter (fun t => active t = true) ts) + length (spawned o))%nat.
Proof.
  rewrite filter_app, length_app. f_equal. by destruct o as [[c|]|].
Qed.

(** Only a [Log] event can add a forwarder; the other events replace one
    active task by its next state. *)
Lemma step_forwarders (e : event) (s s' : Relay) :
  step e s = Some s' ->
  (forall env record, e <> Log env record) ->
  (forwarders s' <= forwarders s)%nat.
Proof.
  unfold forwarders.
  destruct e as [env record|i|i|i env]; simpl; intros Hstep Hne.
  - by destruct (Hne env record).
  - destruct (tasks s !! i) as [[c [|p k|]]|] eqn:Hi; try done.
    destruct (drain _ _) as [q st]. injection Hstep as <-. simpl.
    by apply (forwarders_replace _ _ _ _ Hi).
  - destruct (tasks s !! i) as [[c [|p k|]]|] eqn:Hi; try done.
    destruct (resume _ _) as [q st]. injection Hstep as <-. simpl.
    by apply (forwarders_replace _ _ _ _ Hi).
  - destruct (tasks s !! i) as [[c [|p k|]]|] eqn:Hi; try done.
    injection Hstep as <-. simpl.
    by apply (forwarders_replace _ _ _ _ Hi).
Qed.

(** C3 (as the code has it). A forwarding task is created only by an
    emission that finds the queue empty before it appends: one event adds
    at most one forwarder, and when it adds one, the event is a logged
    record, the queue was empty and now holds that record alone, and the
    new task is the one just created; an emission that finds the queue
    non-empty creates no task and at most appends its line to the lines
    already queued. *)
Theorem C3_task_created_only_on_empty_queue (e : event) (s s' : Relay) :
  step e s = Some s' ->
  (forwarders s' <= S (forwarders s))%nat /\
  ((forwarders s < forwarders s')%nat ->
     exists env record c,
       e = Log env record /\
       queue (handler s) = [] /\
       queue (handler s') = [format record] /\
       tasks s' = tasks s ++ [{| chan_id := c; co := Created |}]) /\
  (forall env record,
     e = Log env record -> queue (handler s) <> [] ->
     tasks s' = tasks s /\
     (queue (handler s') = queue (handler s) \/
      queue (handler s') = queue (handler s) ++ [format record])).
Proof.
  intros Hstep.
  destruct e as [env record|i|i|i env].
  - simpl in Hstep.
    destruct (handle_cases format int env record (handler s))
      as [Hh|(Hle & c & Hh)]; rewrite Hh in Hstep; injection Hstep as <-;
      unfold forwarders; simpl.
    + rewrite app_nil_r. split; [lia|]. split; [lia|].
      intros ? ? _ _. split; [done | by left].
    + rewrite forwarders_spawned.
      destruct (queue (handler s)) as [|text q] eqn:Hq; simpl.
      * destruct (loop_running env); simpl.
        -- split; [lia|]. split; [|done].
           intros _. by exists env, record, c.
        -- split; [lia|]. split; [lia | done].
      * rewrite app_nil_r. split; [lia|]. split; [lia|].
        intros ? ? [= <- <-] _. split; [done | by right].
  - assert (H := step_forwarders _ _ _ Hstep). split; [|split].
    + etrans; [apply H; by intros|]. lia.
    + intros Hlt. assert (forwarders s' <= forwarders s)%nat by (apply H; by intros). lia.
    + by intros.
  - assert (H := step_forwarders _ _ _ Hstep). split; [|split].
    + etrans; [apply H; by intros|]. lia.
    + intros Hlt. assert (forwarders s' <= forwarders s)%nat by (apply H; by intros). lia.
    + by intros.
  - assert (H := step_forwarders _ _ _ Hstep). split; [|split].
    + etrans; [apply H; by intros|]. lia.
    + intros Hlt. assert (forwarders s' <= forwarders s)%nat by (apply H; by intros). lia.
    + by intros.
Qed.

End Machine.

Section Forward.

Variable format_b_py : string -> string.
Variable encode_utf8 : string -> list Byte.byte.
Variable format : LogRecord -> string.
Variable int : string -> option Z.
Variable delivers : list Sent -> Sent -> bool.

Local Abbreviation forward := (forward format_b_py encode_utf8 format int delivers).
Local Abbreviation log_discord := (log_discord format_b_py encode_utf8 format int delivers).
Local Abbreviation wrapped := (wrapped format_b_py).
Local Abbreviation carries := (carries format_b_py encode_utf8).
Local Abbreviation log_file := (log_file encode_utf8).

Lemma len_app (a b : string) : len (a +:+ b) = (len a + len b)%nat.
Proof. unfold len. induction a as [|c a IH]; [done|]. simpl. by rewrite <- IH. Qed.

Lemma app_empty_r (a : string) : a +:+ "" = a.
Proof. induction a as [|c a IH]; [done|]. change (String c (a +:+ "") = String c a). by rewrite IH. Qed.

Lemma app_assoc_s (a b c : string) : (a +:+ b) +:+ c = a +:+ (b +:+ c).
Proof.
  induction a as [|x a IH]; [done|].
  change (String x ((a +:+ b) +:+ c) = String x (a +:+ (b +:+ c))). by rewrite IH.
Qed.

Lemma len_zero (a : string) : len a = 0%nat -> a = "".
Proof. by destruct a. Qed.

Lemma wrapped_app (a b : list string) : wrapped (a ++ b) = wrapped a +:+ wrapped b.
Proof.
  induction a as [|t a IH]; [done|]. simpl. by rewrite IH, app_assoc_s.
Qed.

Lemma wrapped_single (t : string) : wrapped [t] = format_b_py t.
Proof. simpl. apply app_empty_r. Qed.

Lemma wrapped_elem (t : string) (g : list string) :
  t ∈ g -> (len (format_b_py t) <= len (wrapped g))%nat.
Proof.
  induction g as [|u g IH]; [by intros ?%elem_of_nil|].
  intros [->|Hin]%elem_of_cons; simpl; rewrite len_app; [lia|].
  specialize (IH Hin). lia.
Qed.

(** One round of the loop is one [queue_pop()]: [None] ends the loop, a
    line is placed as the body of the loop says. *)
Lemma forward_queue_pop (env : Env) (chan_id : Z) (h : DiscordHandler)
    (message : string) (sent : list Sent) :
  forward env chan_id (level h) (queue h) message sent =
  match queue_pop h with
  | (None, h') =>
      if (0 <? len message)%nat then
        match send delivers chan_id (Content message) sent with
        | Some sent' => {| handler_after := h'; sent_after := sent'; excepted := false |}
        | None => except format int env h' sent
        end
      else {| handler_after := h'; sent_after := sent; excepted := false |}
  | (Some text, h') =>
      let codeblock := format_b_py text in
      if (2000 <? len message + len codeblock)%nat then
        match (if (0 <? len message)%nat
               then send delivers chan_id (Content message) sent else Some sent) with
        | None => except format int env h' sent
        | Some sent1 =>
            if (2000 <? len codeblock)%nat then
              match send delivers chan_id (Attachment (log_file text)) sent1 with
              | None => except format int env h' sent1
              | Some sent2 => forward env chan_id (level h') (queue h') "" sent2
              end
            else forward env chan_id (level h') (queue h') codeblock sent1
        end
      else forward env chan_id (level h') (queue h') (message +:+ codeblock) sent
  end.
Proof. unfold queue_pop. destruct h as [lvl [|text q]]; reflexivity. Qed.

Section Delivering.

(** The code block of a line holds at least its delimiters. *)
Hypothesis nonempty : forall text, format_b_py text <> "".
(** No send raises. *)
Hypothesis all_delivered : forall sent s, delivers sent s = true.

Lemma send_ok (c : Z) (p : payload) (sent : list Sent) :
  send delivers c p sent = Some (sent ++ [{| to := c; what := p |}]).
Proof. unfold send. by rewrite all_delivered. Qed.

Lemma wrapped_empty (pre : list string) : wrapped pre = "" -> pre = [].
Proof.
  destruct pre as [|t pre]; [done|]. simpl. intros H.
  destruct (format_b_py t) eqn:Ht; [by apply nonempty in Ht | done].
Qed.



(** With every send returning, what the loop sends is appended to what was
    sent before, and does not depend on it. *)
Lemma forward_sent_prefix (env : Env) (chan_id lvl : Z) (q : list string)
    (message : string) (sent : list Sent) :
  sent_after (forward env chan_id lvl q message sent) =
  sent ++ sent_after (forward env chan_id lvl q message []).
Proof.
  revert message sent. induction q as [|text q IH]; intros message sent; simpl.
  - destruct (0 <? len message)%nat; rewrite ?send_ok; simpl; by rewrite ?app_nil_r.
  - destruct (2000 <? len message + len (format_b_py text))%nat; [|apply IH].
    destruct (0 <? len message)%nat; rewrite ?send_ok;
      destruct (2000 <? len (format_b_py text))%nat; rewrite ?send_ok;
      rewrite IH; symmetry; rewrite IH; simpl; by rewrite <- ?app_assoc.
Qed.

(** A line whose code block alone is over the limit, met with the buffer
    [message]: the buffer is sent first if it is not empty, then the file,
    and the loop goes on with an empty buffer. *)
Lemma forward_oversized (env : Env) (chan_id lvl : Z) (text : string)
    (q : list string) (message : string) (sent : list Sent) :
  (2000 < len (format_b_py text))%nat ->
  forward env chan_id lvl (text :: q) message sent =
  forward env chan_id lvl q ""
    (sent ++
     (if (0 <? len message)%nat
      then [{| to := chan_id; what := Content message |}] else []) ++
     [{| to := chan_id; what := Attachment (log_file text) |}]).
Proof.
  intros Hbig. simpl.
  rewrite (proj2 (Nat.ltb_lt 2000 (len message + len (format_b_py text)))) by lia.
  rewrite (proj2 (Nat.ltb_lt 2000 (len (format_b_py text)))) by lia.
  destruct (0 <? len message)%nat; rewrite !send_ok; simpl; by rewrite <- ?app_assoc.
Qed.

Lemma forward_split (env : Env) (chan_id lvl : Z) (text : string)
    (before after : list string) (message : string) (sent : list Sent) :
  (2000 < len (format_b_py text))%nat ->
  forward env chan_id lvl (before ++ text :: after) message sent =
  forward env chan_id lvl after ""
    (sent_after (forward env chan_id lvl before message sent) ++
     [{| to := chan_id; what := Attachment (log_file text) |}]).
Proof.
  intros Hbig. revert message sent.
  induction before as [|line before IH]; intros message sent.
  - rewrite app_nil_l, forward_oversized by done. simpl.
    destruct (0 <? len message)%nat; rewrite ?send_ok; simpl; by rewrite <- ?app_assoc.
  - simpl.
    destruct (2000 <? len message + len (format_b_py line))%nat; [|apply IH].
    destruct (0 <? len message)%nat; rewrite ?send_ok;
      destruct (2000 <? len (format_b_py line))%nat; rewrite ?send_ok; apply IH.
Qed.

(** *** The task and the uninterrupted run agree

    A single forwarding task that nothing interleaves with, each of its
    sends returning, goes through the states of [step] to the outcome of
    [log_discord]. *)

Local Abbreviation run := (run format_b_py encode_utf8 format int).
Local Abbreviation drain := (drain format_b_py encode_utf8).
Local Abbreviation resume := (resume format_b_py encode_utf8).

Lemma run_returns (lvl c : Z) (q : list string) (p : payload) (k : cont)
    (r : list Sent) (n : nat) (es : list event) :
  run (Returns 0 :: es) (lone lvl q c (Awaiting p k) r n) =
  run es (lone lvl (fst (resume k q)) c (snd (resume k q))
            (r ++ [{| to := c; what := p |}]) n).
Proof.
  unfold lone. cbn [DiscordLog.run DiscordLog.step tasks handler queue lookup list_lookup].
  by destruct (resume k q).
Qed.

Lemma drain_runs (env : Env) (lvl c : Z) (q : list string) (message : string)
    (r : list Sent) (n : nat) :
  run (repeat (Returns 0) (length (sent_after (forward env c lvl q message []))))
      (lone lvl (fst (drain q message)) c (snd (drain q message)) r n) =
  Some (lone lvl [] c Finished
          (r ++ sent_after (forward env c lvl q message [])) n).
Proof.
  revert message r. induction q as [|text q IH]; intros message r.
  - cbn [DiscordLog.forward DiscordLog.drain].
    destruct (0 <? len message)%nat; rewrite ?send_ok;
      cbn [sent_after fst snd length app repeat].
    + by rewrite run_returns.
    + by rewrite app_nil_r.
  - cbn [DiscordLog.forward DiscordLog.drain].
    destruct (2000 <? len message + len (format_b_py text))%nat; [|apply IH].
    destruct (0 <? len message)%nat; rewrite ?send_ok;
      destruct (2000 <? len (format_b_py text))%nat eqn:Hbig; rewrite ?send_ok;
      rewrite forward_sent_prefix;
      cbn [sent_after fst snd length app repeat];
      rewrite ?run_returns; cbn [DiscordLog.resume]; rewrite ?Hbig;
      cbn [fst snd]; rewrite ?run_returns; cbn [DiscordLog.resume];
      rewrite IH; by rewrite <- ?app_assoc.
Qed.


End Delivering.

Section Outcomes.

Local Abbreviation run := (run format_b_py encode_utf8 format int).

(** The code block of a line holds at least its delimiters. *)
Hypothesis nonempty : forall text, format_b_py text <> "".

Lemma except_outcome (env : Env) (h : DiscordHandler) (sent : list Sent) :
  except format int env h sent =
    {| handler_after := h; sent_after := sent; excepted := true |}.
Proof. unfold except. by rewrite handle_report. Qed.

Lemma wrapped_positive (pre : list string) :
  (0 < len (wrapped pre))%nat -> pre <> [].
Proof. intros H ->. unfold len in H. simpl in H. lia. Qed.

Lemma flushed_group (chan_id : Z) (pre : list string) :
  (0 < len (wrapped pre))%nat -> (len (wrapped pre) <= 2000)%nat ->
  carries chan_id pre {| to := chan_id; what := Content (wrapped pre) |}.
Proof.
  intros Hpos Hlen. split; [by apply wrapped_positive|]. split; [done|]. by left.
Qed.

(** The loop under any behaviour of the sends, started with the buffer
    holding the code blocks of [pre]: what was sent carries, group by
    group, the first of the lines [pre ++ q]; the lines [lost] after them
    were taken and not sent; the rest is still queued. *)
Lemma forward_any (env : Env) (chan_id lvl : Z) (q pre : list string) (sent : list Sent) :
  (len (wrapped pre) <= 2000)%nat ->
  exists groups outs lost rest failed,
    forward env chan_id lvl q (wrapped pre) sent =
      {| handler_after := {| level := lvl; queue := rest |};
         sent_after := sent ++ outs; excepted := failed |} /\
    pre ++ q = concat groups ++ lost ++ rest /\
    Forall2 (carries chan_id) groups outs /\
    (failed = false -> lost = [] /\ rest = []) /\
    (failed = true -> lost <> []).
Proof.
  revert pre sent. induction q as [|text q IH]; intros pre sent Hlen;
    cbn [DiscordLog.forward].
  - destruct (Nat.ltb_spec 0 (len (wrapped pre))) as [Hpos|Hz].
    + unfold send. destruct (delivers sent _).
      * exists [pre], [{| to := chan_id; what := Content (wrapped pre) |}], [], [], false.
        simpl. rewrite !app_nil_r. split; [done|]. split; [done|].
        split; [|done]. constructor; [by apply flushed_group | constructor].
      * rewrite except_outcome. exists [], [], pre, [], true. simpl.
        rewrite !app_nil_r. split; [done|]. split; [done|]. split; [constructor|].
        split; [done|]. intros _. by apply wrapped_positive.
    + assert (pre = []) as ->.
      { apply (wrapped_empty nonempty). apply len_zero. lia. }
      exists [], [], [], [], false. simpl. rewrite app_nil_r.
      split; [done|]. split; [done|]. split; [constructor | done].
  - set (codeblock := format_b_py text).
    destruct (Nat.ltb_spec 2000 (len (wrapped pre) + len codeblock)) as [Hover|Hfit].
    + destruct (Nat.ltb_spec 0 (len (wrapped pre))) as [Hpos|Hz].
      * (* the buffer is sent first *)
        unfold send at 1.
        destruct (delivers sent {| to := chan_id; what := Content (wrapped pre) |}).
        2:{ rewrite except_outcome. exists [], [], (pre ++ [text]), q, true. simpl.
            rewrite app_nil_r, <- app_assoc. split; [done|]. split; [done|].
            split; [constructor|]. split; [done|]. intros _. by destruct pre. }
        destruct (Nat.ltb_spec 2000 (len codeblock)) as [Hbig|Hsmall].
        -- unfold send.
           destruct (delivers _ {| to := chan_id; what := Attachment (log_file text) |}).
           ++ destruct (IH [] ((sent ++ [{| to := chan_id; what := Content (wrapped pre) |}]) ++
                               [{| to := chan_id; what := Attachment (log_file text) |}]))
                as (groups & outs & lost & rest & failed & H1 & H3 & H4 & H5 & H6);
                [unfold len; simpl; lia|].
              change (wrapped []) with "" in H1. rewrite H1.
              exists (pre :: [text] :: groups),
                ({| to := chan_id; what := Content (wrapped pre) |} ::
                 {| to := chan_id; what := Attachment (log_file text) |} :: outs),
                lost, rest, failed.
              split; [by rewrite <- !app_assoc|].
              split; [simpl in H3 |- *; rewrite <- ?app_assoc; simpl; by rewrite <- H3|].
              split; [|done].
              constructor; [by apply flushed_group|].
              constructor; [|done].
              split; [done|]. split; [done|]. right. by exists text.
           ++ rewrite except_outcome.
              exists [pre], [{| to := chan_id; what := Content (wrapped pre) |}],
                [text], q, true.
              simpl. rewrite app_nil_r. split; [done|]. split; [done|].
              split; [|done]. constructor; [by apply flushed_group | constructor].
        -- destruct (IH [text] (sent ++ [{| to := chan_id; what := Content (wrapped pre) |}]))
             as (groups & outs & lost & rest & failed & H1 & H3 & H4 & H5 & H6).
           { rewrite wrapped_single. fold codeblock. lia. }
           rewrite wrapped_single in H1. fold codeblock in H1. rewrite H1.
           exists (pre :: groups),
             ({| to := chan_id; what := Content (wrapped pre) |} :: outs),
             lost, rest, failed.
           split; [by rewrite <- !app_assoc|].
           split; [simpl in H3 |- *; rewrite <- ?app_assoc; simpl; by rewrite <- H3|].
           split; [|done].
           constructor; [by apply flushed_group | done].
      * (* nothing buffered *)
        assert (pre = []) as ->.
        { apply (wrapped_empty nonempty). apply len_zero. lia. }
        change (wrapped []) with "" in *.
        destruct (Nat.ltb_spec 2000 (len codeblock)) as [Hbig|Hsmall];
          [|unfold len in Hover; simpl in Hover; unfold len in Hsmall; lia].
        unfold send.
        destruct (delivers _ {| to := chan_id; what := Attachment (log_file text) |}).
        -- destruct (IH [] (sent ++ [{| to := chan_id; what := Attachment (log_file text) |}]))
             as (groups & outs & lost & rest & failed & H1 & H3 & H4 & H5 & H6);
             [unfold len; simpl; lia|].
           change (wrapped []) with "" in H1. rewrite H1.
           exists ([text] :: groups),
             ({| to := chan_id; what := Attachment (log_file text) |} :: outs),
             lost, rest, failed.
           split; [by rewrite <- !app_assoc|].
           split; [simpl in H3 |- *; by rewrite <- H3|]. split; [|done].
           constructor; [|done].
           split; [done|]. split; [done|]. right. by exists text.
        -- rewrite except_outcome. exists [], [], [text], q, true. simpl.
           rewrite app_nil_r. split; [done|]. split; [done|].
           split; [constructor | done].
    + destruct (IH (pre ++ [text]) sent)
        as (groups & outs & lost & rest & failed & H1 & H3 & H4 & H5 & H6).
      { rewrite wrapped_app, wrapped_single, len_app. fold codeblock. lia. }
      rewrite wrapped_app, wrapped_single in H1. fold codeblock in H1.
      exists groups, outs, lost, rest, failed. rewrite <- app_assoc in H3. done.
Qed.


(** C2 (as the code has it). For a queued line whose code block is longer
    than 2000 characters.  When the loop meets it, whatever is in the
    buffer is sent first, as a text message, when it is not empty; then
    the line itself is sent as the file [log.txt], whose content is the
    UTF-8 encoding of the line; and the loop goes on with an empty buffer.
    Either send may raise: the [except] clause then ends the forwarding,
    and the line, already popped, is neither sent nor queued any more.
    Whatever the sends do, no text message holds the line: in the split of
    the queue into the groups that were sent, the line is a group of its
    own, carried by its file.  When every send returns, the sends of a
    queue with such a line are the sends for the lines before it, the
    file, and the sends for the lines after it. *)
Theorem C2_oversized_line_goes_to_file (env : Env) (chan_id lvl : Z) (text : string)
    (before after : list string) :
  (2000 < len (format_b_py text))%nat ->
  let file := {| to := chan_id;
                 what := Attachment {| fp := encode_utf8 text; filename := "log.txt" |} |} in
  let sends q := sent_after (log_discord env chan_id {| level := lvl; queue := q |} []) in
  (forall q message sent,
     let failed sent' :=
       {| handler_after := {| level := lvl; queue := q |};
          sent_after := sent'; excepted := true |} in
     let then_file sent' :=
       if delivers sent' file
       then forward env chan_id lvl q "" (sent' ++ [file])
       else failed sent' in
     let flushed := {| to := chan_id; what := Content message |} in
     forward env chan_id lvl (text :: q) message sent =
       if (0 <? len message)%nat
       then (if delivers sent flushed then then_file (sent ++ [flushed]) else failed sent)
       else then_file sent) /\
  (exists groups outs lost rest failed,
     log_discord env chan_id {| level := lvl; queue := before ++ text :: after |} [] =
       {| handler_after := {| level := lvl; queue := rest |};
          sent_after := outs; excepted := failed |} /\
     before ++ text :: after = concat groups ++ lost ++ rest /\
     Forall2 (fun g s => carries chan_id g s /\ (text ∈ g -> g = [text] /\ s = file))
             groups outs) /\
  ((forall sent s, delivers sent s = true) ->
     sends (before ++ text :: after) = sends before ++ [file] ++ sends after).
Proof.
  intros Hbig file sends. split; [|split].
  - intros q message sent failed then_file flushed. subst failed then_file flushed.
    cbn [DiscordLog.forward].
    rewrite (proj2 (Nat.ltb_lt 2000 (len message + len (format_b_py text)))) by lia.
    rewrite (proj2 (Nat.ltb_lt 2000 (len (format_b_py text)))) by lia.
    subst file. unfold send, DiscordLog.log_file.
    destruct (0 <? len message)%nat.
    + destruct (delivers sent _); [|by rewrite except_outcome].
      destruct (delivers _ _); by rewrite ?except_outcome.
    + destruct (delivers _ _); by rewrite ?except_outcome.
  - unfold DiscordLog.log_discord. simpl.
    destruct (forward_any env chan_id lvl (before ++ text :: after) [] [])
      as (groups & outs & lost & rest & failed & H1 & H3 & H4 & _ & _);
      [unfold len; simpl; lia|].
    change (wrapped []) with "" in H1. simpl in H1, H3.
    exists groups, outs, lost, rest, failed. split; [done|]. split; [done|].
    clear H1 H3.
    induction H4 as [|g s groups outs Hgs _ IH]; constructor; [|done].
    split; [done|]. intros Hin.
    destruct Hgs as (_ & Hto & [[_ Hl]|(line & -> & _ & Hw)]).
    + apply wrapped_elem in Hin. lia.
    + apply list_elem_of_singleton in Hin as ->. split; [done|].
      destruct s as [c w]. simpl in *. by subst.
  - intros Hall. subst sends. unfold DiscordLog.log_discord. simpl.
    rewrite (forward_split Hall) by done. rewrite (forward_sent_prefix Hall).
    by rewrite <- app_assoc.
Qed.

End Outcomes.

End Forward.

(** *** The statements at concrete inputs *)

Lemma codeblock_py_nonempty (text : string) : codeblock_py text <> "".
Proof. done. Qed.




(** C8 at concrete records: one that is accepted inside the running loop,
    the same one outside a running loop, one that carries the marker, one
    logged from inside [log_discord]. *)
Lemma C8_witness :
  emit formatted int_digits ready (error_record "a") init =
    ({| level := ERROR; queue := ["bot ERROR: a"] |}, Emitted (Some 42)) /\
  emit formatted int_digits idle (error_record "a") init =
    ({| level := ERROR; queue := ["bot ERROR: a"] |}, RuntimeError) /\
  ("no_discord" ∈ extra report ->
   emit formatted int_digits ready report init = (init, Emitted None)) /\
  (log_discord_code ∈ [other_code "emit"; log_discord_code] ->
   emit formatted int_digits
        {| event_loop := Some false; channel := Some "42"; client_closed := false;
           frames := [other_code "emit"; log_discord_code]; loop_running := true |}
        (error_record "a") init = (init, Emitted None)).
Proof.
  split; [|split; [|split]].
  - destruct (C8_emit_drops_or_appends formatted int_digits ready (error_record "a") init)
      as [_ H].
    destruct H as (c & chan_id & Hc & Hi & He).
    + intros [H|[H|[H|[H|[(c & Hc & Hi)|[H|H]]]]]]; try discriminate.
      * by apply elem_of_nil in H.
      * injection Hc as <-. discriminate.
      * apply list_elem_of_In in H. simpl in H. intuition discriminate.
    + injection Hc as <-. injection Hi as <-. exact He.
  - destruct (C8_emit_drops_or_appends formatted int_digits idle (error_record "a") init)
      as [_ H].
    destruct H as (c & chan_id & Hc & Hi & He).
    + intros [H|[H|[H|[H|[(c & Hc & Hi)|[H|H]]]]]]; try discriminate.
      * by apply elem_of_nil in H.
      * injection Hc as <-. discriminate.
      * apply list_elem_of_In in H. simpl in H. intuition discriminate.
    + injection Hc as <-. injection Hi as <-. exact He.
  - intros H.
    apply (proj1 (C8_emit_drops_or_appends formatted int_digits ready report init)).
    by left.
  - intros H.
    apply (proj1 (C8_emit_drops_or_appends formatted int_digits _ (error_record "a") init)).
    do 6 right. exact H.
Defined.

Lemma oversized_2500 : (2000 < len (codeblock_py (line_of 2500)))%nat.
Proof. apply Nat.ltb_lt. vm_compute. reflexivity. Qed.

(** C2 (as the code has it) for a line of 2500 characters between two
    short lines. *)
Lemma C2_witness :
  (forall text, codeblock_py text <> "") /\
  (2000 < len (codeblock_py (line_of 2500)))%nat /\
  let file := {| to := 42;
                 what := Attachment {| fp := ascii_bytes (line_of 2500);
                                       filename := "log.txt" |} |} in
  let sends q :=
    sent_after (log_discord codeblock_py ascii_bytes formatted int_digits reliable
                  ready 42 {| level := ERROR; queue := q |} []) in
  ((forall sent s, reliable sent s = true) ->
   sends ([line_of 10] ++ line_of 2500 :: [line_of 20]) =
   sends [line_of 10] ++ [file] ++ sends [line_of 20]).
Proof.
  split; [exact codeblock_py_nonempty|]. split; [exact oversized_2500|].
  exact (proj2 (proj2
    (C2_oversized_line_goes_to_file codeblock_py ascii_bytes formatted int_digits
       reliable codeblock_py_nonempty
       ready 42 ERROR (line_of 2500) [line_of 10] [line_of 20] oversized_2500))).
Defined.

(** C2, as stated, does not hold: a short line and a line of 2500
    characters are queued, and the channel takes nothing.  The send of the
    buffer, which comes first, raises; the long line, already popped, is
    neither sent as a file nor left in the queue. *)
Lemma C2_oversized_line_lost :
  let h := {| level := ERROR; queue := [line_of 10; line_of 2500] |} in
  let out := log_discord codeblock_py ascii_bytes formatted int_digits unreachable
               ready 42 h [] in
  (2000 < len (codeblock_py (line_of 2500)))%nat /\
  excepted out = true /\
  sent_after out = [] /\
  queue (handler_after out) = [].
Proof.
  intros h out. split; [exact oversized_2500|].
  split; [vm_compute; reflexivity|]. split; vm_compute; reflexivity.
Qed.

(** The state after one record was logged in the initial state. *)
Lemma first_record_logged :
  step codeblock_py ascii_bytes formatted int_digits
       (Log ready (error_record "a")) initial =
  Some {| handler := {| level := ERROR; queue := ["bot ERROR: a"] |};
          tasks := [{| chan_id := 42; co := Created |}];
          received := []; reports := 0 |}.
Proof. vm_compute. reflexivity. Qed.

(** C3 (as the code has it) at the first record logged after [init()]. *)
Lemma C3_witness :
  let s' := {| handler := {| level := ERROR; queue := ["bot ERROR: a"] |};
               tasks := [{| chan_id := 42; co := Created |}];
               received := []; reports := 0 |} in
  step codeblock_py ascii_bytes formatted int_digits
       (Log ready (error_record "a")) initial = Some s' /\
  (forwarders s' <= S (forwarders initial))%nat /\
  ((forwarders initial < forwarders s')%nat ->
     exists env record c,
       Log ready (error_record "a") = Log env record /\
       queue (handler initial) = [] /\
       queue (handler s') = [formatted record] /\
       tasks s' = tasks initial ++ [{| chan_id := c; co := Created |}]).
Proof.
  split; [exact first_record_logged|].
  destruct (C3_task_created_only_on_empty_queue codeblock_py ascii_bytes formatted
              int_digits _ _ _ first_record_logged) as (H1 & H2 & _).
  exact (conj H1 H2).
Defined.

(** C3, as stated, does not hold: a record is logged and its task starts,
    takes the line and waits for its last send; a second record then finds
    the queue empty, and its task is created while the first has not
    finished. *)
Lemma C3_two_forwarders_reachable :
  exists s,
    run codeblock_py ascii_bytes formatted int_digits
        [Log ready (error_record "a"); Start 0; Log ready (error_record "b")]
        initial = Some s /\
    tasks s = [{| chan_id := 42;
                  co := Awaiting (Content (codeblock_py "bot ERROR: a")) AfterFinal |};
               {| chan_id := 42; co := Created |}] /\
    forwarders s = 2%nat /\
    ~ (forwarders s <= 1)%nat.
Proof.
  eexists. split; [vm_compute; reflexivity|].
  split; [reflexivity|]. split; [reflexivity|]. vm_compute. lia.
Qed.

Lemma two_records_logged :
  run codeblock_py ascii_bytes formatted int_digits
      [Log ready (warning_record "w"); Log ready (error_record "boom")] initial =
  Some {| handler := {| level := ERROR; queue := ["bot ERROR: boom"] |};
          tasks := [{| chan_id := 42; co := Created |}];
          received := []; reports := 0 |}.
Proof. vm_compute. reflexivity. Qed.

(** C9 at a run that logs a warning and then an error. *)
Lemma C9_witness :
  let es := [Log ready (warning_record "w"); Log ready (error_record "boom")] in
  let s := {| handler := {| level := ERROR; queue := ["bot ERROR: boom"] |};
              tasks := [{| chan_id := 42; co := Created |}];
              received := []; reports := 0 |} in
  run codeblock_py ascii_bytes formatted int_digits es initial = Some s /\
  level (handler s) = ERROR /\
  (forall env record,
     levelno record < ERROR ->
     step codeblock_py ascii_bytes formatted int_digits (Log env record) s = Some s) /\
  Forall (fun text => exists env record,
            Log env record ∈ es /\ ERROR <= levelno record /\ text = formatted record)
         (queue (handler s)).
Proof.
  split; [exact two_records_logged|].
  destruct (C9_below_error_never_queued codeblock_py ascii_bytes formatted
              int_digits _ _ two_records_logged) as (H1 & H2 & H3 & _).
  exact (conj H1 (conj H2 H3)).
Defined.

End DiscordLogSpec.

Module RestartSpec.
Import Restart.

(** An assignment to a name the function does not declare global leaves
    the module's names alone. *)
Lemma assign_undeclared (name : string) (value : bool) (f : Frame) :
  globals (process (assign [] name value f)) = globals (process f).
Proof.
  unfold assign. rewrite bool_decide_eq_false_2; [done|]. apply not_elem_of_nil.
Qed.

(** With [global will_restart] in force the same assignment would reach
    the module. *)
Lemma assign_declared (value : bool) (f : Frame) :
  globals (process (assign ["will_restart"] "will_restart" value f)) !! "will_restart"
  = Some value.
Proof.
  unfold assign. rewrite bool_decide_eq_true_2; [|by apply list_elem_of_singleton].
  simpl. apply lookup_insert_eq.
Qed.

(** C5, on the code. [restart()] leaves the module's [will_restart] as it
    was: the assignment in its body binds a local name.  After [restart()]
    in a freshly imported module the exit hook therefore returns at once,
    whatever [sys] and [os.execv] would do: nothing is re-executed.  The
    loop is stopped all the same; the client is as it was, since the
    coroutine [close()] is called and never awaited. *)
Theorem C5_restart_leaves_flag_unset (p : Process)
    (sys_interpreter : option string) (sys_argv : list string)
    (execv : string -> list string -> bool) :
  globals (restart p) = globals p /\
  client_closed (restart p) = client_closed p /\
  loop_stopped (restart p) = true /\
  globals (restart fresh) !! "will_restart" = Some false /\
  atexit_restart_maybe sys_interpreter sys_argv execv (restart fresh) =
    (restart fresh, Returned).
Proof.
  split; [|split; [|split; [|split]]].
  - unfold restart, restart_declared. simpl.
    destruct (client_closed p); done.
  - unfold restart, restart_declared. simpl.
    destruct (client_closed p) eqn:E; simpl; by rewrite ?E.
  - unfold restart, restart_declared. simpl. by destruct (client_closed p).
  - done.
  - done.
Qed.

(** Had the flag been set, the hook would behave as intended only where
    [sys.interpreter] exists: it replaces the image, or logs the failure of
    [os.execv] as critical and returns. *)
Lemma atexit_with_flag_set (p : Process) (interpreter : string)
    (sys_argv : list string) (execv : string -> list string -> bool) :
  globals p !! "will_restart" = Some true ->
  atexit_restart_maybe (Some interpreter) sys_argv execv p =
    if execv interpreter sys_argv
    then (logged INFO "Re-executing" p, Replaced interpreter sys_argv)
    else (logged CRITICAL "Restart failed" (logged INFO "Re-executing" p), Returned).
Proof.
  intros H. unfold atexit_restart_maybe, load. simpl. by rewrite lookup_empty, H.
Qed.

End RestartSpec.

(* ===================================================================== *)
(** * Further properties of src/bot/privileges.py *)
(* ===================================================================== *)

Module PrivilegesMore.
Import Privileges PrivilegesSpec.

Section Commands.

Variable fetch_user : Z -> option string.

Lemma priv_show_existing (guild : option (list Role)) (conf : PrivilegesConf)
    (priv : string) :
  priv_exists conf priv = true ->
  priv_show fetch_user guild priv conf =
    (conf, Ok (Includes priv
                 (map (show_user fetch_user) (default [] (conf !! (priv, users))) ++
                  map (show_role guild) (default [] (conf !! (priv, roles)))))).
Proof.
  intros H. unfold priv_show, bind, getitem, ret.
  rewrite (validate_priv_ok _ _ H). by rewrite !or_empty_default.
Qed.

(** What one command can do to the configuration: raise a [UserError] and
    leave it alone, or return after one of four changes to the entries of
    the name it is addressed to. *)
Lemma invoke_effect (guild : option (list Role)) (c : command) (conf : PrivilegesConf) :
  (exists e, invoke fetch_user guild c conf = (conf, Raise (EUserError e))) \/
  (exists reply conf',
     invoke fetch_user guild c conf = (conf', Ok reply) /\
     (conf' = conf \/
      conf' = <[(target c, roles) := []]> (<[(target c, users) := []]> conf) \/
      conf' = delete (target c, roles) (delete (target c, users) conf) \/
      exists f l',
        conf' = <[(target c, f) := l']> conf /\
        (NoDup (default [] (conf !! (target c, f))) -> NoDup l'))).
Proof.
  destruct c as [p|p|p|p i|p i|p i|p i]; simpl;
    destruct (priv_exists conf p) eqn:Hex.
  - left. eexists. unfold priv_new. by rewrite Hex.
  - right. do 2 eexists. split; [by apply priv_new_fresh|]. auto.
  - right. do 2 eexists. split; [by apply priv_delete_existing|]. auto.
  - left. eexists. by apply priv_delete_missing.
  - right. do 2 eexists. split; [by apply priv_show_existing|]. auto.
  - left. eexists. by apply priv_show_missing.
  - destruct (decide (i ∈ default [] (conf !! (p, users)))) as [Hin|Hin].
    + left. eexists. by apply add_user_present.
    + right. do 2 eexists. split; [by apply add_user_fresh|].
      do 3 right. do 2 eexists. split; [done|]. by apply NoDup_snoc.
  - left. eexists. by apply membership_missing.
  - destruct (decide (i ∈ default [] (conf !! (p, roles)))) as [Hin|Hin].
    + left. eexists. by apply add_role_present.
    + right. do 2 eexists. split; [by apply add_role_fresh|].
      do 3 right. do 2 eexists. split; [done|]. by apply NoDup_snoc.
  - left. eexists. by apply membership_missing.
  - destruct (decide (i ∈ default [] (conf !! (p, users)))) as [Hin|Hin].
    + right. destruct (remove_user_present _ _ _ Hex Hin) as (l1 & l2 & Heq & _ & Hrm).
      do 2 eexists. split; [exact Hrm|].
      do 3 right. do 2 eexists. split; [done|].
      rewrite Heq. intros Hnd. apply remove_first_NoDup in Hnd. tauto.
    + left. eexists. by apply remove_user_absent.
  - left. eexists. by apply membership_missing.
  - destruct (decide (i ∈ default [] (conf !! (p, roles)))) as [Hin|Hin].
    + right. destruct (remove_role_present _ _ _ Hex Hin) as (l1 & l2 & Heq & _ & Hrm).
      do 2 eexists. split; [exact Hrm|].
      do 3 right. do 2 eexists. split; [done|].
      rewrite Heq. intros Hnd. apply remove_first_NoDup in Hnd. tauto.
    + left. eexists. by apply remove_role_absent.
  - left. eexists. by apply membership_missing.
Qed.

(** X1. A command raises its [UserError] before it stores anything:
    whatever command is invoked on whatever configuration, if it raises a
    [UserError], the stored configuration is exactly what it was.  And no
    command raises the [ValueError] of [list.remove]: the two commands
    that call it do so only for an id they have found in the list.  (What
    comes after the store, [await conf] and the reply, is not part of the
    commands as modelled, nor are the exceptions it may raise.) *)
Theorem invoke_raise_leaves_conf (guild : option (list Role)) (c : command)
    (conf : PrivilegesConf) :
  (forall conf' u,
     invoke fetch_user guild c conf = (conf', Raise (EUserError u)) -> conf' = conf) /\
  (forall conf', invoke fetch_user guild c conf <> (conf', Raise EValueError)).
Proof.
  destruct (invoke_effect guild c conf) as [(u & Hu)|(reply & conf1 & Hr & _)];
    rewrite ?Hu, ?Hr; split; intros; congruence.
Qed.

Lemma invoke_keeps_NoDup (guild : option (list Role)) (c : command)
    (conf : PrivilegesConf) :
  (forall k l, conf !! k = Some l -> NoDup l) ->
  forall k l, (invoke fetch_user guild c conf).1 !! k = Some l -> NoDup l.
Proof.
  intros Hall k l.
  destruct (invoke_effect guild c conf)
    as [(u & ->)|(reply & conf1 & -> & [->|[->|[->|(f & l' & -> & Hl')]]])]; simpl.
  - apply Hall.
  - apply Hall.
  - rewrite lookup_insert. case_decide; [intros [= <-]; constructor|].
    rewrite lookup_insert. case_decide; [intros [= <-]; constructor|]. apply Hall.
  - rewrite lookup_delete. case_decide; [done|].
    rewrite lookup_delete. case_decide; [done|]. apply Hall.
  - rewrite lookup_insert. case_decide; [|apply Hall].
    intros [= <-]. apply Hl'.
    destruct (conf !! (target c, f)) as [l0|] eqn:Hl0; simpl; [by eapply Hall | constructor].
Qed.

Lemma priv_command_conf (ctx : Context) (c : command) (conf : PrivilegesConf) :
  (priv_command fetch_user ctx c conf).1.1 = conf \/
  (priv_command fetch_user ctx c conf).1.1 = (invoke fetch_user (ctx_guild ctx) c conf).1.
Proof.
  unfold priv_command, PrivCheck.
  destruct (has_privilege conf "shell" (author ctx)); [|by left].
  right. by destruct (invoke _ _ _ _).
Qed.

(** X2. If no stored list holds an id twice, then none does after any
    sequence of command invocations, by whatever authors: the commands
    keep every user list and every role list duplicate-free. *)
Theorem session_keeps_lists_duplicate_free (invocations : list (Context * command))
    (conf : PrivilegesConf) :
  (forall k l, conf !! k = Some l -> NoDup l) ->
  forall k l, session fetch_user invocations conf !! k = Some l -> NoDup l.
Proof.
  revert conf. induction invocations as [|[ctx c] rest IH]; intros conf Hall; [done|].
  simpl. apply IH.
  destruct (priv_command_conf ctx c conf) as [->| ->]; [done|].
  by apply invoke_keeps_NoDup.
Qed.

Lemma has_privilege_lookup (conf conf' : PrivilegesConf) (priv : string) (a : Actor) :
  conf' !! (priv, users) = conf !! (priv, users) ->
  conf' !! (priv, roles) = conf !! (priv, roles) ->
  has_privilege conf' priv a = has_privilege conf priv a.
Proof. unfold has_privilege. by intros -> ->. Qed.

(** X3. A command changes nothing about any other name: the stored lists
    of a name the command is not addressed to are as before, and so is the
    answer of [has_privilege] for that name and every actor. *)
Theorem invoke_other_names_untouched (guild : option (list Role)) (c : command)
    (conf : PrivilegesConf) (p : string) :
  p ≠ target c ->
  (forall f, (invoke fetch_user guild c conf).1 !! (p, f) = conf !! (p, f)) /\
  (forall actor,
     has_privilege (invoke fetch_user guild c conf).1 p actor =
     has_privilege conf p actor).
Proof.
  intros Hp.
  assert (Hl : forall f, (invoke fetch_user guild c conf).1 !! (p, f) = conf !! (p, f)).
  { intros f.
    destruct (invoke_effect guild c conf)
      as [(u & ->)|(reply & conf1 & -> & [->|[->|[->|(f' & l' & -> & _)]]])]; simpl;
      try done.
    - by rewrite !lookup_insert_ne by congruence.
    - by rewrite !lookup_delete_ne by congruence.
    - by rewrite lookup_insert_ne by congruence. }
  split; [done|]. intros actor. by apply has_privilege_lookup.
Qed.

Lemma list_remove_snoc (x : Z) (l : list Z) :
  x ∉ l -> list_remove x (l ++ [x]) = Some l.
Proof.
  induction l as [|y l IH]; simpl.
  - intros _. by rewrite decide_True.
  - rewrite not_elem_of_cons. intros [Hne Hl].
    rewrite decide_False by done. by rewrite IH.
Qed.

Lemma truthy_snoc (l : list Z) (x : Z) : truthy (Some (l ++ [x])) = true.
Proof. by destruct l. Qed.

Lemma has_privilege_reinsert (conf : PrivilegesConf) (priv : string) (f : field)
    (p : string) (actor : Actor) :
  has_privilege (<[(priv, f) := default [] (conf !! (priv, f))]> conf) p actor =
  has_privilege conf p actor.
Proof.
  unfold has_privilege.
  destruct (decide (p = priv)) as [->|Hp].
  - destruct f.
    + rewrite lookup_insert_eq, lookup_insert_ne by done.
      by destruct (conf !! (priv, users)) as [[|u us]|].
    + rewrite lookup_insert_eq, lookup_insert_ne by done.
      by destruct (conf !! (priv, roles)) as [[|u us]|].
  - by rewrite !lookup_insert_ne by congruence.
Qed.

(** X4. Adding an id that is not in the list and removing it again gives
    back the list as it was, for the users and for the roles of an existing
    set: both commands return, the stored list is the old one (the empty
    list where the entry was unset), every other entry is untouched, and
    [has_privilege] answers as before for every name and actor. *)
Theorem add_then_remove_restores (conf : PrivilegesConf) (priv : string) (id : Z) :
  priv_exists conf priv = true ->
  (id ∉ default [] (conf !! (priv, users)) ->
     exists conf1,
       add_user priv id conf = (conf1, Ok (AddedUser id priv)) /\
       remove_user priv id conf1 =
         (<[(priv, users) := default [] (conf !! (priv, users))]> conf,
          Ok (RemovedUser id priv))) /\
  (id ∉ default [] (conf !! (priv, roles)) ->
     exists conf1,
       add_role priv id conf = (conf1, Ok (AddedRole id priv)) /\
       remove_role priv id conf1 =
         (<[(priv, roles) := default [] (conf !! (priv, roles))]> conf,
          Ok (RemovedRole id priv))) /\
  (forall f l, conf !! (priv, f) = Some l ->
     <[(priv, f) := default [] (conf !! (priv, f))]> conf = conf) /\
  (forall f p actor,
     has_privilege (<[(priv, f) := default [] (conf !! (priv, f))]> conf) p actor =
     has_privilege conf p actor).
Proof.
  intros Hex. split; [|split; [|split]].
  - intros Hnot. eexists. split; [by apply add_user_fresh|].
    set (us := default [] (conf !! (priv, users))) in *.
    unfold remove_user, priv_remove, priv_remove_user, bind, getitem, store, ret,
      raise, remove, setitem.
    rewrite validate_priv_ok
      by (apply priv_exists_true; left; by rewrite lookup_insert_eq).
    simpl. rewrite lookup_insert_eq, or_empty_default. simpl.
    rewrite (proj2 (contains_true id (us ++ [id]))) by (apply elem_of_app; right; by left).
    simpl. rewrite list_remove_snoc by done. simpl.
    by rewrite insert_insert_eq.
  - intros Hnot. eexists. split; [by apply add_role_fresh|].
    set (rs := default [] (conf !! (priv, roles))) in *.
    unfold remove_role, priv_remove, priv_remove_role, bind, getitem, store, ret,
      raise, remove, setitem.
    rewrite validate_priv_ok
      by (apply priv_exists_true; right; by rewrite lookup_insert_eq).
    simpl. rewrite lookup_insert_eq, or_empty_default. simpl.
    rewrite (proj2 (contains_true id (rs ++ [id]))) by (apply elem_of_app; right; by left).
    simpl. rewrite list_remove_snoc by done. simpl.
    by rewrite insert_insert_eq.
  - intros f l Hl. rewrite Hl. simpl. by apply insert_id.
  - intros f p actor. apply has_privilege_reinsert.
Qed.


(** X6. Membership and the check agree.  On an existing set, once an id
    has been added as a user, [has_privilege] answers true for every actor
    with that id; once it has been added as a role, it answers true for
    every member holding a role with that id; and once a user has been
    removed from a duplicate-free list, an actor with that id and without
    role context is refused. *)
Theorem membership_decides_privilege (conf : PrivilegesConf) (priv : string) (id : Z) :
  priv_exists conf priv = true ->
  (id ∉ default [] (conf !! (priv, users)) ->
     forall actor, actor_id actor = id ->
       has_privilege (add_user priv id conf).1 priv actor = true) /\
  (id ∉ default [] (conf !! (priv, roles)) ->
     forall m member_roles role,
       role ∈ member_roles -> role_id role = id ->
       has_privilege (add_role priv id conf).1 priv (Member m member_roles) = true) /\
  (id ∈ default [] (conf !! (priv, users)) ->
     NoDup (default [] (conf !! (priv, users))) ->
     has_privilege (remove_user priv id conf).1 priv (User id) = false).
Proof.
  intros Hex. split; [|split].
  - intros Hnot actor <-. rewrite add_user_fresh by done. simpl.
    unfold has_privilege. rewrite lookup_insert_eq. rewrite truthy_contains. simpl.
    by rewrite (proj2 (contains_true _ _)) by (apply elem_of_app; right; by left).
  - intros Hnot m member_roles role Hin <-. rewrite add_role_fresh by done. simpl.
    unfold has_privilege. rewrite lookup_insert_eq.
    destruct (truthy _ && contains _ _); [done|].
    rewrite truthy_snoc. simpl. apply existsb_role. exists role. split; [done|].
    apply elem_of_app. right. by left.
  - intros Hin Hnd.
    destruct (remove_user_present _ _ _ Hex Hin) as (l1 & l2 & Heq & _ & ->). simpl.
    rewrite Heq in Hnd. apply remove_first_NoDup in Hnd as (Hgone & _ & _).
    unfold has_privilege. rewrite lookup_insert_eq, truthy_contains. simpl.
    by rewrite (proj2 (contains_false _ _)) by done.
Qed.

Lemma show_role_id (guild : option (list Role)) (id : Z) :
  entry_id (show_role guild id) = id /\ entry_field (show_role guild id) = roles.
Proof.
  unfold show_role.
  destruct (List.find _ _) as [role|] eqn:Hf; [|done].
  apply find_some in Hf as [_ Hid]. by apply bool_decide_eq_true in Hid.
Qed.

Lemma show_user_id (id : Z) :
  entry_id (show_user fetch_user id) = id /\
  entry_field (show_user fetch_user id) = users.
Proof. unfold show_user. by destruct (fetch_user id). Qed.

(** X7. [priv show] on an existing set changes nothing and lists every
    stored id once, in the stored order, the users before the roles, each
    entry tagged by the list it comes from; outside a guild every role is
    listed by its bare id. *)
Theorem priv_show_lists_members (guild : option (list Role)) (conf : PrivilegesConf)
    (priv : string) :
  priv_exists conf priv = true ->
  exists output,
    priv_show fetch_user guild priv conf = (conf, Ok (Includes priv output)) /\
    map entry_id output =
      default [] (conf !! (priv, users)) ++ default [] (conf !! (priv, roles)) /\
    map entry_field output =
      replicate (length (default [] (conf !! (priv, users)))) users ++
      replicate (length (default [] (conf !! (priv, roles)))) roles /\
    (guild = None ->
     forall e, e ∈ output -> entry_field e = roles -> e = RoleRaw (entry_id e)).
Proof.
  intros Hex. eexists. split; [by apply priv_show_existing|].
  set (us := default [] (conf !! (priv, users))).
  set (rs := default [] (conf !! (priv, roles))).
  split; [|split].
  - rewrite map_app, !map_map. f_equal.
    + induction us as [|u us IH]; [done|]. simpl.
      by rewrite (proj1 (show_user_id u)), IH.
    + induction rs as [|r rs IH]; [done|]. simpl.
      by rewrite (proj1 (show_role_id guild r)), IH.
  - rewrite map_app, !map_map. f_equal.
    + induction us as [|u us IH]; [done|]. simpl.
      by rewrite (proj2 (show_user_id u)), IH.
    + induction rs as [|r rs IH]; [done|]. simpl.
      by rewrite (proj2 (show_role_id guild r)), IH.
  - intros -> e [Hin|Hin]%elem_of_app Hf.
    + apply list_elem_of_fmap in Hin as (u & -> & _).
      by rewrite (proj2 (show_user_id u)) in Hf.
    + by apply list_elem_of_fmap in Hin as (r & -> & _).
Qed.

Lemma has_privilege_missing (conf : PrivilegesConf) (priv : string) (actor : Actor) :
  priv_exists conf priv = false -> has_privilege conf priv actor = false.
Proof.
  intros [Hu Hr]%priv_exists_false. unfold has_privilege. rewrite Hu, Hr.
  by destruct actor.
Qed.

(** X8. The commands stand behind the check for the set ["shell"].  An
    author the check refuses changes nothing: the command does not run and
    one warning with the command name and the author is logged.  An author
    it accepts gets the command run, without a warning.  So while the set
    ["shell"] does not exist, no sequence of invocations, by whatever
    authors, changes the configuration: the first holder of ["shell"] has
    to be stored by other means. *)
Theorem shell_check_guards_commands (ctx : Context) (c : command)
    (conf : PrivilegesConf) :
  (has_privilege conf "shell" (author ctx) = false ->
     priv_command fetch_user ctx c conf =
       (conf, CheckFailure,
        [{| denied_command := invoked_with ctx; denied_author := author ctx |}])) /\
  (has_privilege conf "shell" (author ctx) = true ->
     priv_command fetch_user ctx c conf =
       ((invoke fetch_user (ctx_guild ctx) c conf).1,
        Ran (invoke fetch_user (ctx_guild ctx) c conf).2, [])) /\
  (priv_exists conf "shell" = false ->
     forall invocations, session fetch_user invocations conf = conf).
Proof.
  split; [|split].
  - intros H. unfold priv_command, PrivCheck. by rewrite H.
  - intros H. unfold priv_command, PrivCheck. rewrite H.
    by destruct (invoke _ _ _ _).
  - intros Hex invocations.
    induction invocations as [|[ctx' c'] rest IH]; [done|]. simpl.
    unfold priv_command, PrivCheck.
    by rewrite (has_privilege_missing _ _ _ Hex).
Qed.

End Commands.

(** *** The statements at concrete inputs *)

Lemma staff_users_unset : default [] (sample_conf !! ("staff", users)) = [].
Proof. vm_compute. reflexivity. Qed.

Lemma mods_users : default [] (sample_conf !! ("mods", users)) = [1; 2].
Proof. vm_compute. reflexivity. Qed.

Lemma mods_user_twice :
  invoke no_user None (AddUser "mods" 2) sample_conf =
    (sample_conf, Raise (EUserError (UserAlreadyIn 2 "mods"))).
Proof.
  apply (add_user_present sample_conf "mods" 2 mods_exists).
  rewrite mods_users. repeat constructor.
Qed.

(** X1 at a second [priv add mods user 2]. *)
Lemma invoke_raise_leaves_conf_witness :
  invoke no_user None (AddUser "mods" 2) sample_conf =
    (sample_conf, Raise (EUserError (UserAlreadyIn 2 "mods"))) /\
  sample_conf = sample_conf /\
  (forall conf', invoke no_user None (AddUser "mods" 2) sample_conf
                 <> (conf', Raise EValueError)).
Proof.
  split; [exact mods_user_twice|].
  destruct (invoke_raise_leaves_conf no_user None (AddUser "mods" 2) sample_conf)
    as [H1 H2].
  split; [exact (H1 _ _ mods_user_twice) | exact H2].
Defined.

Lemma shell_conf_NoDup (k : string * field) (l : list Z) :
  shell_conf !! k = Some l -> NoDup l.
Proof.
  unfold shell_conf, sample_conf. rewrite !lookup_insert.
  repeat case_decide;
    first [ by rewrite lookup_empty
          | intros [= <-]; repeat constructor; set_solver ].
Qed.

(** X2 at two invocations by the holder of ["shell"] in [shell_conf]. *)
Lemma session_keeps_lists_duplicate_free_witness :
  (forall k l, shell_conf !! k = Some l -> NoDup l) /\
  (forall k l,
     session no_user [(shell_ctx, AddUser "mods" 3); (shell_ctx, RemoveUser "mods" 1)]
             shell_conf !! k = Some l ->
     NoDup l).
Proof.
  split; [exact shell_conf_NoDup|].
  exact (session_keeps_lists_duplicate_free no_user _ shell_conf shell_conf_NoDup).
Defined.

Lemma staff_is_not_mods : "staff" ≠ target (AddUser "mods" 3).
Proof. done. Qed.

(** X3 for the name ["staff"] under [priv add mods user 3]. *)
Lemma invoke_other_names_untouched_witness :
  "staff" ≠ target (AddUser "mods" 3) /\
  (forall f, (invoke no_user None (AddUser "mods" 3) sample_conf).1 !! ("staff", f) =
             sample_conf !! ("staff", f)) /\
  (forall actor,
     has_privilege (invoke no_user None (AddUser "mods" 3) sample_conf).1 "staff" actor =
     has_privilege sample_conf "staff" actor).
Proof.
  split; [exact staff_is_not_mods|].
  exact (invoke_other_names_untouched no_user None (AddUser "mods" 3) sample_conf
           "staff" staff_is_not_mods).
Defined.

(** X4 for the user 5 and the set ["staff"], whose user list is unset. *)
Lemma add_then_remove_restores_witness :
  priv_exists sample_conf "staff" = true /\
  (5 ∉ default [] (sample_conf !! ("staff", users))) /\
  exists conf1,
    add_user "staff" 5 sample_conf = (conf1, Ok (AddedUser 5 "staff")) /\
    remove_user "staff" 5 conf1 =
      (<[("staff", users) := default [] (sample_conf !! ("staff", users))]> sample_conf,
       Ok (RemovedUser 5 "staff")).
Proof.
  assert (Hnot : 5 ∉ default [] (sample_conf !! ("staff", users))).
  { rewrite staff_users_unset. apply not_elem_of_nil. }
  split; [exact staff_exists|]. split; [exact Hnot|].
  exact (proj1 (add_then_remove_restores sample_conf "staff" 5 staff_exists) Hnot).
Defined.

(** X6 for the user 7 added to ["mods"] and the user 2 removed from it. *)
Lemma membership_decides_privilege_witness :
  priv_exists sample_conf "mods" = true /\
  has_privilege (add_user "mods" 7 sample_conf).1 "mods" (User 7) = true /\
  has_privilege (remove_user "mods" 2 sample_conf).1 "mods" (User 2) = false.
Proof.
  destruct (membership_decides_privilege sample_conf "mods" 7 mods_exists) as (H1 & _ & _).
  destruct (membership_decides_privilege sample_conf "mods" 2 mods_exists) as (_ & _ & H3).
  split; [exact mods_exists|]. split.
  - apply H1; [|done]. rewrite mods_users. set_solver.
  - apply H3; rewrite mods_users; [set_solver|]. repeat constructor; set_solver.
Defined.

(** X7 for the set ["mods"], shown in a direct message. *)
Lemma priv_show_lists_members_witness :
  priv_exists sample_conf "mods" = true /\
  exists output,
    priv_show no_user None "mods" sample_conf = (sample_conf, Ok (Includes "mods" output)) /\
    map entry_id output =
      default [] (sample_conf !! ("mods", users)) ++
      default [] (sample_conf !! ("mods", roles)).
Proof.
  split; [exact mods_exists|].
  destruct (priv_show_lists_members no_user None sample_conf "mods" mods_exists)
    as (output & H1 & H2 & _).
  exists output. exact (conj H1 H2).
Defined.

End PrivilegesMore.

(* ===================================================================== *)
(** * Further properties of src/plugins/discord_log.py *)
(* ===================================================================== *)

Module DiscordLogMore.
Import DiscordLog DiscordLogSpec.

Section Burst.

Variable format : LogRecord -> string.
Variable int : string -> option Z.

Lemma emit_accepts (env : Env) (record : LogRecord) (h : DiscordHandler)
    (c : string) (chan : Z) :
  event_loop env = Some false -> channel env = Some c -> int c = Some chan ->
  client_closed env = false -> log_discord_code ∉ frames env ->
  "no_discord" ∉ extra record ->
  emit format int env record h =
    ({| level := level h; queue := queue h ++ [format record] |},
     match queue h with
     | [] => if loop_running env then Emitted (Some chan) else RuntimeError
     | _ :: _ => Emitted None
     end).
Proof.
  intros Hl Hc Hi Hcl Hf Hm. unfold emit, hasattr.
  rewrite bool_decide_eq_false_2 by done. rewrite Hl, Hc, Hi, Hcl.
  destruct (existsb is_log_discord (frames env)) eqn:He.
  - by apply in_log_discord in He.
  - by destruct (queue h).
Qed.

Lemma pops_all (h : DiscordHandler) :
  pops (length (queue h)) h = (Some <$> queue h, {| level := level h; queue := [] |}).
Proof.
  destruct h as [lvl q]. simpl. induction q as [|text q IH]; [done|].
  simpl. unfold queue_pop. simpl. by rewrite IH.
Qed.

(** X9. A burst of records that [emit] accepts: the handler keeps its
    level, and its queue is the old queue followed by the formatted
    records in the order they were logged.  Inside a running loop exactly
    one task is created, by the first record, when the queue was empty,
    and none otherwise; outside a running loop that first call raises the
    [RuntimeError] of [asyncio.create_task] with its line queued, and no
    task is created for the burst at all.  Every other call returns
    without a task.  Popping then returns the lines in the order they were
    logged, once each, and after them [None]. *)
Theorem burst_is_queued_in_order (env : Env) (records : list LogRecord)
    (h : DiscordHandler) (c : string) (chan : Z) :
  event_loop env = Some false -> channel env = Some c -> int c = Some chan ->
  client_closed env = false -> log_discord_code ∉ frames env ->
  (forall record, record ∈ records -> "no_discord" ∉ extra record) ->
  let h' := (emits format int env records h).1 in
  let lines := queue h ++ map format records in
  level h' = level h /\
  queue h' = lines /\
  (emits format int env records h).2 =
    match queue h, records with
    | [], _ :: rest =>
        (if loop_running env then Emitted (Some chan) else RuntimeError)
        :: map (fun _ => Emitted None) rest
    | _, _ => map (fun _ => Emitted None) records
    end /\
  pops (S (length lines)) h' = ((Some <$> lines) ++ [None], {| level := level h; queue := [] |}).
Proof.
  intros Hl Hc Hi Hcl Hf Hm.
  assert (Hemits : forall rs h0,
            (forall record, record ∈ rs -> "no_discord" ∉ extra record) ->
            emits format int env rs h0 =
              ({| level := level h0; queue := queue h0 ++ map format rs |},
               match queue h0, rs with
               | [], _ :: rest =>
                   (if loop_running env then Emitted (Some chan) else RuntimeError)
                   :: map (fun _ => Emitted None) rest
               | _, _ => map (fun _ => Emitted None) rs
               end)).
  { induction rs as [|r rs IH]; intros h0 Hrs; simpl.
    - rewrite app_nil_r. by destruct h0 as [lvl [|]].
    - rewrite (emit_accepts env r h0 c chan) by (try done; apply Hrs; by left).
      rewrite IH by (intros r' Hr'; apply Hrs; by right). simpl.
      rewrite <- app_assoc. simpl.
      destruct (queue h0) as [|t q]; simpl; by destruct rs. }
  intros h' lines. subst h' lines. rewrite (Hemits records h Hm).
  cbn [fst snd level queue].
  split; [done|]. split; [done|]. split; [done|].
  set (lines := queue h ++ map format records).
  replace (S (length lines)) with (length lines + 1)%nat by lia.
  assert (Hpops : forall n m h0 rs1 h1 rs2 h2,
            pops n h0 = (rs1, h1) -> pops m h1 = (rs2, h2) ->
            pops (n + m) h0 = (rs1 ++ rs2, h2)).
  { induction n as [|n IH]; intros m h0 rs1 h1 rs2 h2; simpl.
    - by intros [= <- <-].
    - destruct (queue_pop h0) as [r hq]. destruct (pops n hq) as [rs hn] eqn:Hn.
      intros [= <- <-] Hm2. by rewrite (IH m hq rs hn rs2 h2 Hn Hm2). }
  pose proof (pops_all {| level := level h; queue := lines |}) as Hall.
  simpl in Hall. by apply (Hpops _ _ _ _ _ _ _ Hall).
Qed.

End Burst.


Section AnyOutcome.

Variable format_b_py : string -> string.
Variable encode_utf8 : string -> list Byte.byte.
Variable format : LogRecord -> string.
Variable int : string -> option Z.
Variable delivers : list Sent -> Sent -> bool.

Local Abbreviation forward := (forward format_b_py encode_utf8 format int delivers).
Local Abbreviation log_discord := (log_discord format_b_py encode_utf8 format int delivers).
Local Abbreviation wrapped := (wrapped format_b_py).
Local Abbreviation carries := (carries format_b_py encode_utf8).
Local Abbreviation log_file := (log_file encode_utf8).

(** The code block of a line holds at least its delimiters. *)
Hypothesis nonempty : forall text, format_b_py text <> "".

(** X10. [log_discord] under any behaviour of the sends.  It keeps the
    handler's level and only adds to what the channel received; what it
    adds carries, group by group and in order, the first of the queued
    lines, each text message within 2000 characters; the lines after those
    that it popped without sending them ([lost]) are gone; and the rest is
    still queued.  When no send raised, nothing is lost and the queue is
    empty; when one raised, at least one line is lost: [log_discord] does
    not put back what it had taken. *)
Theorem log_discord_any_outcome (env : Env) (chan_id : Z) (h : DiscordHandler)
    (sent : list Sent) :
  exists groups outs lost rest failed,
    log_discord env chan_id h sent =
      {| handler_after := {| level := level h; queue := rest |};
         sent_after := sent ++ outs; excepted := failed |} /\
    queue h = concat groups ++ lost ++ rest /\
    Forall2 (carries chan_id) groups outs /\
    Forall (fun s => acceptable (what s)) outs /\
    (failed = false -> lost = [] /\ rest = []) /\
    (failed = true -> lost <> []).
Proof.
  unfold DiscordLog.log_discord.
  destruct (forward_any format_b_py encode_utf8 format int delivers nonempty
              env chan_id (level h) (queue h) [] sent)
    as (groups & outs & lost & rest & failed & H1 & H3 & H4 & H5 & H6);
    [unfold len; simpl; lia|].
  change (wrapped []) with "" in H1.
  exists groups, outs, lost, rest, failed.
  split; [done|]. split; [done|]. split; [done|]. split; [|done].
  clear -H4. induction H4 as [|g s groups outs (Hg & Hto & Hw) _ IH]; constructor; [|done].
  destruct Hw as [[-> Hl]|(text & _ & _ & ->)]; done.
Qed.

End AnyOutcome.

Section Interleaved.

Variable format_b_py : string -> string.
Variable encode_utf8 : string -> list Byte.byte.
Variable format : LogRecord -> string.
Variable int : string -> option Z.

Local Abbreviation step := (step format_b_py encode_utf8 format int).
Local Abbreviation run := (run format_b_py encode_utf8 format int).
Local Abbreviation drain := (drain format_b_py encode_utf8).
Local Abbreviation resume := (resume format_b_py encode_utf8).
Local Abbreviation handle := (handle format int).

Lemma drain_acceptable (q : list string) (message : string) :
  (len message <= 2000)%nat ->
  match (drain q message).2 with
  | Awaiting p _ => acceptable p
  | _ => True
  end.
Proof.
  revert message. induction q as [|text q IH]; intros message Hlen; simpl.
  - by destruct (0 <? len message)%nat.
  - destruct (Nat.ltb_spec 2000 (len message + len (format_b_py text))).
    + destruct (0 <? len message)%nat; [done|].
      destruct (Nat.ltb_spec 2000 (len (format_b_py text))); [done|]. by apply IH.
    + apply IH. rewrite len_app. lia.
Qed.

Lemma resume_acceptable (k : cont) (q : list string) :
  match (resume k q).2 with
  | Awaiting p _ => acceptable p
  | _ => True
  end.
Proof.
  destruct k as [text codeblock| |]; simpl; [| |done].
  - destruct (Nat.ltb_spec 2000 (len codeblock)); [done|]. by apply drain_acceptable.
  - apply drain_acceptable. unfold len. simpl. lia.
Qed.

Lemma step_acceptable (e : event) (s s' : Relay) :
  step e s = Some s' ->
  Forall sends_acceptable (tasks s) /\ Forall (fun x => acceptable (what x)) (received s) ->
  Forall sends_acceptable (tasks s') /\ Forall (fun x => acceptable (what x)) (received s').
Proof.
  intros Hstep [Ht Hr]. destruct e as [env record|i|i|i env]; simpl in Hstep.
  - destruct (handle env record (handler s)) as [h o]. injection Hstep as <-. simpl.
    split; [|done]. apply Forall_app. split; [done|].
    destruct o as [[c|]|]; repeat constructor.
  - destruct (tasks s !! i) as [[c [|p k|]]|] eqn:Hi; try done.
    pose proof (drain_acceptable (queue (handler s)) "") as Hd.
    destruct (drain _ _) as [q st]. injection Hstep as <-. simpl. split; [|done].
    apply Forall_insert; [done|]. apply Hd. unfold len. simpl. lia.
  - destruct (tasks s !! i) as [[c [|p k|]]|] eqn:Hi; try done.
    pose proof (resume_acceptable k (queue (handler s))) as Hd.
    destruct (resume _ _) as [q st]. injection Hstep as <-. simpl. split.
    + by apply Forall_insert.
    + apply Forall_app. split; [done|]. apply Forall_singleton. simpl.
      by apply (Forall_lookup_1 _ _ _ _ Ht Hi).
  - destruct (tasks s !! i) as [[c [|p k|]]|] eqn:Hi; try done.
    injection Hstep as <-. simpl. split; [|done]. by apply Forall_insert.
Qed.

(** X11. Whatever happens after [init()] (records logged at any moment,
    several forwarding tasks at once, sends that raise), everything the
    channel has received is a text message of at most 2000 characters or a
    file named [log.txt]. *)
Theorem received_always_acceptable (es : list event) (s : Relay) :
  run es initial = Some s ->
  Forall (fun x => acceptable (what x)) (received s).
Proof.
  intros Hrun.
  assert (Hinv : forall es s0 s1,
            run es s0 = Some s1 ->
            Forall sends_acceptable (tasks s0) /\
            Forall (fun x => acceptable (what x)) (received s0) ->
            Forall sends_acceptable (tasks s1) /\
            Forall (fun x => acceptable (what x)) (received s1)).
  { clear. induction es as [|e es IH]; intros s0 s1; simpl.
    - by intros [= <-].
    - destruct (step e s0) as [s2|] eqn:Hstep; [|done].
      intros Hrun H0. apply (IH _ _ Hrun). by apply (step_acceptable e s0). }
  apply (Hinv es initial s Hrun). split; constructor.
Qed.

Lemma drain_pending (q : list string) (message : string) :
  (drain q message).1 <> [] ->
  match (drain q message).2 with
  | Awaiting _ (AfterFlush _ _) | Awaiting _ AfterFile => True
  | _ => False
  end.
Proof.
  revert message. induction q as [|text q IH]; intros message; simpl.
  - by destruct (0 <? len message)%nat.
  - destruct (2000 <? len message + len (format_b_py text))%nat; [|apply IH].
    destruct (0 <? len message)%nat; [done|].
    destruct (2000 <? len (format_b_py text))%nat; [done|]. apply IH.
Qed.

Lemma pending_task_state (c : Z) (st : coroutine) :
  match st with
  | Awaiting _ (AfterFlush _ _) | Awaiting _ AfterFile => True
  | _ => False
  end ->
  pending {| chan_id := c; co := st |} = true.
Proof. by destruct st as [|p [| |]|]. Qed.

(** If no send raises in the step, and the record it logs, if any, is
    logged inside the running loop, a non-empty queue keeps a task that
    will pop from it. *)
Lemma step_keeps_pending (e : event) (s s' : Relay) :
  step e s = Some s' ->
  (forall i env, e <> Raises i env) ->
  (forall env record, e = Log env record -> loop_running env = true) ->
  (queue (handler s) <> [] -> exists t, t ∈ tasks s /\ pending t = true) ->
  queue (handler s') <> [] -> exists t, t ∈ tasks s' /\ pending t = true.
Proof.
  intros Hstep Hne Hrunning Hinv.
  destruct e as [env record|i|i|i env]; simpl in Hstep.
  - destruct (handle_cases format int env record (handler s))
      as [Hh|(Hle & c & Hh)]; rewrite Hh in Hstep; injection Hstep as <-; simpl.
    + rewrite app_nil_r. done.
    + intros _. destruct (queue (handler s)) as [|text q] eqn:Hq; simpl.
      * rewrite (Hrunning env record eq_refl). simpl.
        exists {| chan_id := c; co := Created |}. split; [|done].
        apply elem_of_app. right. by left.
      * rewrite app_nil_r. by apply Hinv.
  - destruct (tasks s !! i) as [[c [|p k|]]|] eqn:Hi; try done.
    pose proof (drain_pending (queue (handler s)) "") as Hd.
    destruct (drain _ _) as [q st]. injection Hstep as <-. simpl in *.
    intros Hq. exists {| chan_id := c; co := st |}. split.
    + apply list_elem_of_lookup. exists i. apply list_lookup_insert_eq.
      by apply lookup_lt_Some in Hi.
    + by apply pending_task_state, Hd.
  - destruct (tasks s !! i) as [[c [|p k|]]|] eqn:Hi; try done.
    destruct k as [text codeblock| |]; simpl in Hstep.
    + destruct (2000 <? len codeblock)%nat.
      * injection Hstep as <-. simpl. intros _.
        exists {| chan_id := c;
                  co := Awaiting (Attachment (log_file encode_utf8 text)) AfterFile |}.
        split; [|done].
        apply list_elem_of_lookup. exists i. apply list_lookup_insert_eq.
        by apply lookup_lt_Some in Hi.
      * pose proof (drain_pending (queue (handler s)) codeblock) as Hd.
        destruct (drain _ _) as [q st]. injection Hstep as <-. simpl in *.
        intros Hq. exists {| chan_id := c; co := st |}. split.
        -- apply list_elem_of_lookup. exists i. apply list_lookup_insert_eq.
           by apply lookup_lt_Some in Hi.
        -- by apply pending_task_state, Hd.
    + pose proof (drain_pending (queue (handler s)) "") as Hd.
      destruct (drain _ _) as [q st]. injection Hstep as <-. simpl in *.
      intros Hq. exists {| chan_id := c; co := st |}. split.
      * apply list_elem_of_lookup. exists i. apply list_lookup_insert_eq.
        by apply lookup_lt_Some in Hi.
      * by apply pending_task_state, Hd.
    + injection Hstep as <-. simpl. intros Hq.
      destruct (Hinv Hq) as (t & Hin & Hp).
      apply list_elem_of_lookup in Hin as [j Hj].
      assert (j <> i) as Hji.
      { intros ->. rewrite Hi in Hj. by injection Hj as <-. }
      exists t. split; [|done]. apply list_elem_of_lookup. exists j.
      by rewrite list_lookup_insert_ne.
  - by destruct (Hne i env).
Qed.

(** X12. As long as no send raises and every record is logged inside the
    running loop, no queued line is left without a forwarder: in every
    state reached from [init()] by logging records, starting tasks and
    returning sends, in any order, a non-empty queue comes with a task
    that has not started yet or is suspended inside its loop, and so will
    pop the queue again.  (A record logged outside a running loop is
    queued without a task: [idle_record_is_stranded].) *)
Theorem queued_lines_have_a_forwarder (es : list event) (s : Relay) :
  run es initial = Some s ->
  (forall i env, Raises i env ∉ es) ->
  (forall env record, Log env record ∈ es -> loop_running env = true) ->
  queue (handler s) <> [] ->
  exists t, t ∈ tasks s /\ pending t = true.
Proof.
  assert (Hinv : forall es s0 s1,
            run es s0 = Some s1 ->
            (forall i env, Raises i env ∉ es) ->
            (forall env record, Log env record ∈ es -> loop_running env = true) ->
            (queue (handler s0) <> [] -> exists t, t ∈ tasks s0 /\ pending t = true) ->
            queue (handler s1) <> [] -> exists t, t ∈ tasks s1 /\ pending t = true).
  { clear. induction es as [|e es IH]; intros s0 s1; simpl.
    - by intros [= <-].
    - destruct (step e s0) as [s2|] eqn:Hstep; [|done].
      intros Hrun Hno Hin H0. apply (IH _ _ Hrun).
      + intros i env Hi. apply (Hno i env). by right.
      + intros env record Hl. apply (Hin env record). by right.
      + apply (step_keeps_pending e s0 s2 Hstep); [| |done].
        * intros i env ->. apply (Hno i env). by left.
        * intros env record ->. apply (Hin env record). by left. }
  intros Hrun Hno Hin. apply (Hinv es initial s Hrun Hno Hin). done.
Qed.

(** With no active task, only [Log] events can happen, and they create no
    task while the queue is non-empty. *)
Lemma step_stranded (e : event) (s s' : Relay) :
  step e s = Some s' ->
  forwarders s = 0%nat -> queue (handler s) <> [] ->
  tasks s' = tasks s /\ received s' = received s /\
  exists more, queue (handler s') = queue (handler s) ++ more.
Proof.
  intros Hstep Hnone Hq.
  assert (Hidle : forall i t, tasks s !! i = Some t -> co t = Finished).
  { intros i t Hi. unfold forwarders in Hnone.
    apply length_zero_iff_nil in Hnone.
    assert (Hin : t ∈ tasks s) by (apply list_elem_of_lookup; eauto).
    destruct (co t) eqn:Hco; [| |done].
    - assert (t ∈ filter (fun t => active t = true) (tasks s)) as Hf.
      { apply list_elem_of_filter. split; [|done]. unfold active. by rewrite Hco. }
      rewrite Hnone in Hf. by apply elem_of_nil in Hf.
    - assert (t ∈ filter (fun t => active t = true) (tasks s)) as Hf.
      { apply list_elem_of_filter. split; [|done]. unfold active. by rewrite Hco. }
      rewrite Hnone in Hf. by apply elem_of_nil in Hf. }
  destruct e as [env record|i|i|i env]; simpl in Hstep.
  - destruct (handle_cases format int env record (handler s))
      as [Hh|(Hle & c & Hh)]; rewrite Hh in Hstep; injection Hstep as <-; simpl.
    + rewrite app_nil_r. split; [done|]. split; [done|]. exists []. by rewrite app_nil_r.
    + destruct (queue (handler s)) as [|text q] eqn:Hq'; [done|]. simpl.
      rewrite app_nil_r. split; [done|]. split; [done|]. by exists [format record].
  - destruct (tasks s !! i) as [[c st]|] eqn:Hi; [|done].
    apply Hidle in Hi. simpl in Hi. by subst st.
  - destruct (tasks s !! i) as [[c st]|] eqn:Hi; [|done].
    apply Hidle in Hi. simpl in Hi. by subst st.
  - destruct (tasks s !! i) as [[c st]|] eqn:Hi; [|done].
    apply Hidle in Hi. simpl in Hi. by subst st.
Qed.

(** X13. Once no forwarding task is active while lines are queued, the
    relay never sends again: whatever is logged afterwards only makes the
    queue longer, no task is created, and the channel receives nothing
    more.  A send that raises while lines are queued leaves the relay in
    such a state. *)
Theorem stranded_queue_is_never_sent (es : list event) (s s' : Relay) :
  forwarders s = 0%nat ->
  queue (handler s) <> [] ->
  run es s = Some s' ->
  tasks s' = tasks s /\
  received s' = received s /\
  forwarders s' = 0%nat /\
  exists more, queue (handler s') = queue (handler s) ++ more.
Proof.
  revert s. induction es as [|e es IH]; intros s Hnone Hq; simpl.
  - intros [= <-]. do 3 (split; [done|]). exists []. by rewrite app_nil_r.
  - destruct (step e s) as [s1|] eqn:Hstep; [|done].
    destruct (step_stranded e s s1 Hstep Hnone Hq) as (Ht & Hr & more & Hm).
    intros Hrun.
    destruct (IH s1) as (Ht' & Hr' & Hf' & more' & Hm'); [| |done|].
    + unfold forwarders. by rewrite Ht.
    + rewrite Hm. by destruct (queue (handler s)).
    + rewrite Ht', Hr', Ht, Hr. do 3 (split; [done|]).
      exists (more ++ more'). by rewrite Hm', Hm, <- app_assoc.
Qed.

End Interleaved.

Section Joining.

Variable format_b_py : string -> string.
Variable encode_utf8 : string -> list Byte.byte.
Variable format : LogRecord -> string.
Variable int : string -> option Z.
Variable delivers : list Sent -> Sent -> bool.

Local Abbreviation forward := (forward format_b_py encode_utf8 format int delivers).
Local Abbreviation run := (run format_b_py encode_utf8 format int).
Local Abbreviation drain := (drain format_b_py encode_utf8).
Local Abbreviation resume := (resume format_b_py encode_utf8).

(** No send raises. *)
Hypothesis all_delivered : forall sent s, delivers sent s = true.

(** After the flush inside the loop, the loop goes on as if it met the
    line in hand with an empty buffer. *)
Lemma resume_in_hand (k : cont) (q : list string) :
  k = AfterFile \/ (exists text, k = AfterFlush text (format_b_py text)) ->
  resume k q = drain (in_hand k ++ q) "".
Proof.
  intros [->|(text & ->)]; [done|]. simpl.
  change (len "") with 0%nat. simpl.
  by destruct (2000 <? len (format_b_py text))%nat.
Qed.

Lemma run_cons (e : event) (es : list event) (s s1 : Relay) :
  DiscordLog.step format_b_py encode_utf8 format int e s = Some s1 ->
  run (e :: es) s = run es s1.
Proof. intros H. simpl. by rewrite H. Qed.

(** X14. A record logged while the one forwarding task waits for a send
    inside its loop, with lines still queued: no second task is created,
    the line joins the queue behind the others, and the same task, its
    sends returning, forwards the line it has in hand, the queued lines and
    the new line, in that order, exactly as [log_discord] forwards that
    queue, and finishes with the queue empty. *)
Theorem late_record_joins_the_batch (env : Env) (record : LogRecord)
    (lvl chan : Z) (c : string) (q : list string) (p : payload) (k : cont)
    (r : list Sent) (n : nat) :
  event_loop env = Some false -> channel env = Some c -> int c = Some chan ->
  client_closed env = false -> log_discord_code ∉ frames env ->
  "no_discord" ∉ extra record -> lvl <= levelno record ->
  q <> [] ->
  k = AfterFile \/ (exists text, k = AfterFlush text (format_b_py text)) ->
  let outs := sent_after (forward env chan lvl (in_hand k ++ q ++ [format record]) "" []) in
  run (Log env record :: Returns 0 :: repeat (Returns 0) (length outs))
      (lone lvl q chan (Awaiting p k) r n) =
  Some (lone lvl [] chan Finished (r ++ {| to := chan; what := p |} :: outs) n).
Proof.
  intros Hl Hc Hi Hcl Hf Hm Hlvl Hq Hk outs. subst outs.
  assert (Hlog : DiscordLog.step format_b_py encode_utf8 format int (Log env record)
                   (lone lvl q chan (Awaiting p k) r n) =
                 Some (lone lvl (q ++ [format record]) chan (Awaiting p k) r n)).
  { unfold lone. simpl. unfold handle. simpl.
    rewrite (proj2 (Z.leb_le _ _) Hlvl).
    rewrite (emit_accepts format int env record _ c chan) by done. simpl.
    by destruct q. }
  rewrite (run_cons _ _ _ _ Hlog).
  rewrite run_returns, (resume_in_hand k) by done.
  rewrite (drain_runs format_b_py encode_utf8 format int delivers all_delivered env).
  by rewrite <- !app_assoc.
Qed.

End Joining.

(** *** The statements at concrete inputs *)

Lemma ready_outside_log_discord : log_discord_code ∉ frames ready.
Proof. intros H%in_log_discord. vm_compute in H. discriminate H. Qed.

Lemma unmarked (text : string) : "no_discord" ∉ extra (error_record text).
Proof. apply not_elem_of_nil. Qed.

Lemma two_errors_unmarked (record : LogRecord) :
  record ∈ [error_record "a"; error_record "b"] -> "no_discord" ∉ extra record.
Proof.
  intros [->|[->|H]%elem_of_cons]%elem_of_cons;
    [apply unmarked | apply unmarked | by apply elem_of_nil in H].
Qed.

(** X9 for two errors logged on the handler of [init()]. *)
Lemma burst_is_queued_in_order_witness :
  (forall record, record ∈ [error_record "a"; error_record "b"] ->
                  "no_discord" ∉ extra record) /\
  let h' := (emits formatted int_digits ready [error_record "a"; error_record "b"] init).1 in
  let lines := queue init ++ map formatted [error_record "a"; error_record "b"] in
  level h' = level init /\
  queue h' = lines /\
  (emits formatted int_digits ready [error_record "a"; error_record "b"] init).2 =
    [Emitted (Some 42); Emitted None] /\
  pops (S (length lines)) h' =
    ((Some <$> lines) ++ [None], {| level := level init; queue := [] |}).
Proof.
  split; [exact two_errors_unmarked|].
  exact (burst_is_queued_in_order formatted int_digits ready
           [error_record "a"; error_record "b"] init "42" 42
           eq_refl eq_refl eq_refl eq_refl ready_outside_log_discord two_errors_unmarked).
Defined.

(** X10 for [sample_queue] on a channel that takes nothing. *)
Lemma log_discord_any_outcome_witness :
  (forall text, codeblock_py text <> "") /\
  exists groups outs lost rest failed,
    log_discord codeblock_py ascii_bytes formatted int_digits unreachable
                ready 42 sample_handler [] =
      {| handler_after := {| level := level sample_handler; queue := rest |};
         sent_after := [] ++ outs; excepted := failed |} /\
    queue sample_handler = concat groups ++ lost ++ rest /\
    Forall2 (carries codeblock_py ascii_bytes 42) groups outs /\
    (failed = true -> lost <> []).
Proof.
  split; [exact codeblock_py_nonempty|].
  destruct (log_discord_any_outcome codeblock_py ascii_bytes formatted int_digits
              unreachable codeblock_py_nonempty ready 42 sample_handler [])
    as (groups & outs & lost & rest & failed & H1 & H2 & H3 & _ & _ & H6).
  exists groups, outs, lost, rest, failed. exact (conj H1 (conj H2 (conj H3 H6))).
Defined.

Lemma one_record_forwarded :
  run codeblock_py ascii_bytes formatted int_digits
      [Log ready (error_record "a"); Start 0; Returns 0] initial =
  Some {| handler := {| level := ERROR; queue := [] |};
          tasks := [{| chan_id := 42; co := Finished |}];
          received := [{| to := 42; what := Content (codeblock_py "bot ERROR: a") |}];
          reports := 0 |}.
Proof. vm_compute. reflexivity. Qed.

(** X11 at the run that forwards one record. *)
Lemma received_always_acceptable_witness :
  run codeblock_py ascii_bytes formatted int_digits
      [Log ready (error_record "a"); Start 0; Returns 0] initial =
  Some {| handler := {| level := ERROR; queue := [] |};
          tasks := [{| chan_id := 42; co := Finished |}];
          received := [{| to := 42; what := Content (codeblock_py "bot ERROR: a") |}];
          reports := 0 |} /\
  Forall (fun x => acceptable (what x))
         [{| to := 42; what := Content (codeblock_py "bot ERROR: a") |}].
Proof.
  split; [exact one_record_forwarded|].
  exact (received_always_acceptable codeblock_py ascii_bytes formatted int_digits
           _ _ one_record_forwarded).
Defined.

Lemma two_errors_logged :
  run codeblock_py ascii_bytes formatted int_digits
      [Log ready (error_record "a"); Log ready (error_record "b")] initial =
  Some {| handler := {| level := ERROR; queue := ["bot ERROR: a"; "bot ERROR: b"] |};
          tasks := [{| chan_id := 42; co := Created |}];
          received := []; reports := 0 |}.
Proof. vm_compute. reflexivity. Qed.

Lemma two_errors_no_raise (i : nat) (env : Env) :
  Raises i env ∉ [Log ready (error_record "a"); Log ready (error_record "b")].
Proof.
  intros [H|[H|H]%elem_of_cons]%elem_of_cons;
    [discriminate H | discriminate H | by apply elem_of_nil in H].
Qed.

Lemma two_errors_in_the_loop (env : Env) (record : LogRecord) :
  Log env record ∈ [Log ready (error_record "a"); Log ready (error_record "b")] ->
  loop_running env = true.
Proof.
  intros [[= -> _]|[[= -> _]|H]%elem_of_cons]%elem_of_cons;
    [done | done | by apply elem_of_nil in H].
Qed.

(** A record logged after [init()] before the loop runs: it is queued, no
    task is created, and nothing will forward it. *)
Lemma idle_record_is_stranded :
  run codeblock_py ascii_bytes formatted int_digits
      [Log idle (error_record "a")] initial =
  Some {| handler := {| level := ERROR; queue := ["bot ERROR: a"] |};
          tasks := []; received := []; reports := 0 |}.
Proof. vm_compute. reflexivity. Qed.

(** X12 after two errors were logged. *)
Lemma queued_lines_have_a_forwarder_witness :
  (forall i env,
     Raises i env ∉ [Log ready (error_record "a"); Log ready (error_record "b")]) /\
  (forall env record,
     Log env record ∈ [Log ready (error_record "a"); Log ready (error_record "b")] ->
     loop_running env = true) /\
  exists t,
    t ∈ [{| chan_id := 42; co := Created |}] /\ pending t = true.
Proof.
  split; [exact two_errors_no_raise|]. split; [exact two_errors_in_the_loop|].
  exact (queued_lines_have_a_forwarder codeblock_py ascii_bytes formatted int_digits
           _ _ two_errors_logged two_errors_no_raise two_errors_in_the_loop
           ltac:(discriminate)).
Defined.

Lemma failing_run_ends :
  run codeblock_py ascii_bytes formatted int_digits failing_run initial = Some stranded.
Proof. vm_compute. reflexivity. Qed.

Lemma late_record_on_stranded :
  run codeblock_py ascii_bytes formatted int_digits
      [Log ready (error_record "late")] stranded =
  Some {| handler := {| level := ERROR; queue := ["bot ERROR: z"; "bot ERROR: late"] |};
          tasks := tasks stranded; received := received stranded; reports := 1 |}.
Proof. vm_compute. reflexivity. Qed.

(** X13 at the state [failing_run] reaches, for one more record. *)
Lemma stranded_queue_is_never_sent_witness :
  run codeblock_py ascii_bytes formatted int_digits failing_run initial = Some stranded /\
  forwarders stranded = 0%nat /\
  queue (handler stranded) <> [] /\
  let s' := {| handler := {| level := ERROR;
                             queue := ["bot ERROR: z"; "bot ERROR: late"] |};
               tasks := tasks stranded; received := received stranded; reports := 1 |} in
  tasks s' = tasks stranded /\
  received s' = received stranded /\
  forwarders s' = 0%nat /\
  exists more, queue (handler s') = queue (handler stranded) ++ more.
Proof.
  split; [exact failing_run_ends|]. split; [reflexivity|].
  split; [discriminate|].
  exact (stranded_queue_is_never_sent codeblock_py ascii_bytes formatted int_digits
           _ stranded _ eq_refl ltac:(discriminate) late_record_on_stranded).
Defined.

Lemma error_reaches_handler : ERROR <= levelno (error_record "late").
Proof. done. Qed.

(** X14 for a record logged while the task waits for the send of a file,
    one line being queued. *)
Lemma late_record_joins_the_batch_witness :
  (forall sent s, reliable sent s = true) /\
  let p := Attachment (log_file ascii_bytes "big") in
  let outs :=
    sent_after (forward codeblock_py ascii_bytes formatted int_digits reliable ready
                  42 ERROR (in_hand AfterFile ++ ["x"] ++ [formatted (error_record "late")])
                  "" []) in
  run codeblock_py ascii_bytes formatted int_digits
      (Log ready (error_record "late") :: Returns 0 :: repeat (Returns 0) (length outs))
      (lone ERROR ["x"] 42 (Awaiting p AfterFile) [] 0) =
  Some (lone ERROR [] 42 Finished ([] ++ {| to := 42; what := p |} :: outs) 0).
Proof.
  split; [done|].
  exact (late_record_joins_the_batch codeblock_py ascii_bytes formatted int_digits
           reliable (fun _ _ => eq_refl) ready (error_record "late") ERROR 42 "42" ["x"]
           (Attachment (log_file ascii_bytes "big")) AfterFile [] 0%nat
           eq_refl eq_refl eq_refl eq_refl ready_outside_log_discord
           (unmarked "late") error_reaches_handler ltac:(discriminate)
           (or_introl eq_refl)).
Defined.

End DiscordLogMore.

(* ===================================================================== *)
(** * Further properties of src/util/restart.py *)
(* ===================================================================== *)

Module RestartMore.
Import Restart.

Lemma restart_effect (p : Process) :
  restart p =
    {| globals := globals p; client_closed := client_closed p; loop_stopped := true;
       log := log p ++ [(INFO, "Restart requested")];
       never_awaited := if client_closed p then never_awaited p
                        else S (never_awaited p) |}.
Proof.
  unfold restart, restart_declared. simpl.
  destruct (client_closed p) eqn:E; unfold stop_loop, close_client, logged; simpl;
    by rewrite ?E.
Qed.

Section Hook.

Variable sys_interpreter : option string.
Variable sys_argv : list string.
Variable execv : string -> list string -> bool.

Local Abbreviation atexit_restart_maybe :=
  (atexit_restart_maybe sys_interpreter sys_argv execv).

Lemma hook_unarmed (p : Process) :
  globals p !! "will_restart" = Some false ->
  atexit_restart_maybe p = (p, Returned).
Proof.
  intros H. unfold Restart.atexit_restart_maybe, load. simpl.
  by rewrite lookup_empty, H.
Qed.

(** X15. However often [restart()] is called in a process whose
    [will_restart] is [False], the flag stays [False] and the exit hook
    returns without re-executing anything; each call logs its request, and
    after the first one the loop is stopped.  The client is never closed
    by it: it is after any number of calls as it was before, and each call
    that finds it open leaves one more coroutine [close()] that was
    created and never awaited. *)
Theorem restart_never_arms_the_hook (n : nat) (p : Process) :
  globals p !! "will_restart" = Some false ->
  let p' := Nat.iter n restart p in
  globals p' = globals p /\
  log p' = log p ++ replicate n (INFO, "Restart requested") /\
  client_closed p' = client_closed p /\
  never_awaited p' =
    (if client_closed p then never_awaited p else never_awaited p + n)%nat /\
  ((0 < n)%nat -> loop_stopped p' = true) /\
  atexit_restart_maybe p' = (p', Returned).
Proof.
  intros Hflag p'. subst p'.
  assert (H : globals (Nat.iter n restart p) = globals p /\
              log (Nat.iter n restart p) = log p ++ replicate n (INFO, "Restart requested") /\
              client_closed (Nat.iter n restart p) = client_closed p /\
              never_awaited (Nat.iter n restart p) =
                (if client_closed p then never_awaited p else never_awaited p + n)%nat /\
              ((0 < n)%nat -> loop_stopped (Nat.iter n restart p) = true)).
  { induction n as [|n (IHg & IHl & IHc & IHa & _)].
    - simpl. rewrite app_nil_r. split; [done|]. split; [done|]. split; [done|].
      split; [destruct (client_closed p); lia | lia].
    - change (Nat.iter (S n) restart p) with (restart (Nat.iter n restart p)).
      rewrite restart_effect. simpl. split; [done|]. split; [|split; [done|split; [|done]]].
      + rewrite IHl, <- app_assoc. f_equal.
        clear. induction n as [|n IH]; [done|]. simpl. by rewrite IH.
      + rewrite IHc, IHa. destruct (client_closed p); lia. }
  destruct H as (Hg & Hl & Hc & Ha & Hs). do 5 (split; [done|]).
  apply hook_unarmed. by rewrite Hg.
Qed.

(** X16. How the exit hook can end.  It hands over to [os.execv] exactly
    when [will_restart] is [True], [sys.interpreter] can be read and
    [os.execv] succeeds; an exception leaves it exactly when [will_restart]
    is not defined, or is [True] while [sys.interpreter] cannot be read;
    when [os.execv] raises, the hook logs "Restart failed" as critical
    after the "Re-executing" line and returns.  It never touches the flag,
    the client or the loop. *)
Theorem hook_endings (p : Process) :
  (forall interpreter argv,
     (atexit_restart_maybe p).2 = Replaced interpreter argv <->
     globals p !! "will_restart" = Some true /\ sys_interpreter = Some interpreter /\
     argv = sys_argv /\ execv interpreter sys_argv = true) /\
  ((atexit_restart_maybe p).2 = Propagated <->
     globals p !! "will_restart" = None \/
     (globals p !! "will_restart" = Some true /\ sys_interpreter = None)) /\
  (forall interpreter,
     globals p !! "will_restart" = Some true -> sys_interpreter = Some interpreter ->
     execv interpreter sys_argv = false ->
     atexit_restart_maybe p =
       (logged CRITICAL "Restart failed" (logged INFO "Re-executing" p), Returned)) /\
  globals (atexit_restart_maybe p).1 = globals p /\
  client_closed (atexit_restart_maybe p).1 = client_closed p /\
  loop_stopped (atexit_restart_maybe p).1 = loop_stopped p.
Proof.
  unfold Restart.atexit_restart_maybe, load. simpl. rewrite lookup_empty.
  destruct (globals p !! "will_restart") as [[|]|] eqn:Hflag;
    [destruct sys_interpreter as [i|] eqn:Hsi;
       [destruct (execv i sys_argv) eqn:Hex|]| |];
    simpl; (split; [|split; [|split]]); try done;
    try (intros interpreter argv; split;
         [intros [= <- <-] | intros (? & [= <-] & -> & ?)]; done || congruence);
    try (intros interpreter argv; split; [done | intros (? & ? & ? & ?); congruence]);
    try (split; [done | intros [?|[? ?]]; congruence]);
    try (split; [intros _; auto | done]);
    try (intros interpreter ? [= <-] ?; congruence).
Qed.

End Hook.

Lemma fresh_flag : globals fresh !! "will_restart" = Some false.
Proof. done. Qed.

(** X15 for three calls in a fresh process. *)
Lemma restart_never_arms_the_hook_witness :
  globals fresh !! "will_restart" = Some false /\
  let p' := Nat.iter 3 restart fresh in
  globals p' = globals fresh /\
  log p' = log fresh ++ replicate 3 (INFO, "Restart requested") /\
  client_closed p' = client_closed fresh /\
  never_awaited p' =
    (if client_closed fresh then never_awaited fresh else never_awaited fresh + 3)%nat /\
  ((0 < 3)%nat -> loop_stopped p' = true) /\
  atexit_restart_maybe (Some "python3") ["bot.py"] (fun _ _ => true) p' = (p', Returned).
Proof.
  split; [exact fresh_flag|].
  exact (restart_never_arms_the_hook (Some "python3") ["bot.py"] (fun _ _ => true)
           3 fresh fresh_flag).
Defined.

End RestartMore.
